(** * mongohook: a logrus hook that persists entries through a job queue

    Shallow embedding of [mongohook/hook.go] (package [mongohook] of
    github.com/pm-esd/logger) and proofs about its behaviour.

    Go pointers and maps are reference values, so entries and field maps
    live in an explicit heap; the hook's methods thread a [World] that
    also records the calls made to the outside (backend, output sink,
    logrus' own logger). *)

From Stdlib Require Import ZArith Lia Ascii String.
From stdpp Require Import gmap strings list fin_maps pretty.

Local Open Scope string_scope.
Local Open Scope Z_scope.

(** ** Go library functions used by the hook *)

(** [strings.HasPrefix]. *)
Fixpoint HasPrefix (s prefix : string) : bool :=
  match prefix, s with
  | EmptyString, _ => true
  | String _ _, EmptyString => false
  | String c p', String d s' => if decide (c = d) then HasPrefix s' p' else false
  end.

(** [strings.Contains s substr]: [substr] occurs somewhere within [s]. *)
Fixpoint Contains (s substr : string) : bool :=
  HasPrefix s substr ||
  match s with
  | EmptyString => false
  | String _ s' => Contains s' substr
  end.

Definition slash : ascii := "/"%char.

(** Strips the leading slashes of a reversed path, that is the trailing
    slashes of the path. *)
Fixpoint stripSlashes (r : list ascii) : list ascii :=
  match r with
  | c :: r' => if decide (c = slash) then stripSlashes r' else r
  | [] => []
  end.

(** The characters in front of the first slash of a reversed path, that is
    what follows the last slash of the path. *)
Fixpoint untilSlash (r : list ascii) : list ascii :=
  match r with
  | c :: r' => if decide (c = slash) then [] else c :: untilSlash r'
  | [] => []
  end.

(** [path.Base]: the last element of a slash-separated path; trailing
    slashes are removed first, the empty path gives ["."], a path of
    slashes only gives ["/"]. *)
Definition Base (p : string) : string :=
  if decide (p = "") then "."
  else
    let elem := string_of_list_ascii
                  (rev (untilSlash (stripSlashes (rev (list_ascii_of_string p))))) in
    if decide (elem = "") then "/" else elem.

(** [fmt.Sprintf("%s:%d", file, line)]. *)
Definition Sprintf_file_line (file : string) (line : Z) : string :=
  file +:+ ":" +:+ pretty line.

(** [fmt.Sprintf("[Mongo-Hook] Execution error: %s", msg)]. *)
Definition Sprintf_exec_error (msg : string) : string :=
  "[Mongo-Hook] Execution error: " +:+ msg.

(** ** Data model *)

(** [logrus.Level], most severe first, with its numeric value. *)
Inductive Level :=
  | PanicLevel | FatalLevel | ErrorLevel | WarnLevel
  | InfoLevel | DebugLevel | TraceLevel.

Definition level_value (l : Level) : Z :=
  match l with
  | PanicLevel => 0 | FatalLevel => 1 | ErrorLevel => 2 | WarnLevel => 3
  | InfoLevel => 4 | DebugLevel => 5 | TraceLevel => 6
  end.

#[global] Instance Level_eq_dec : EqDecision Level.
Proof. solve_decision. Defined.

(** Entry pointers ([*logrus.Entry]) and references to map objects. *)
Abbreviation ptr := positive (only parsing).
Abbreviation mref := positive (only parsing).

(** A field value ([interface{}]): a string, an integer, or a reference to
    some mutable object that a shallow copy shares. *)
Inductive value :=
  | VString (s : string)
  | VInt (n : Z)
  | VRef (l : positive).

#[global] Instance value_eq_dec : EqDecision value.
Proof. solve_decision. Defined.

(** [logrus.Fields], a [map[string]interface{}], by its contents. *)
Abbreviation Fields := (gmap string value).

(** A resolved stack frame: function name, file and line. *)
Record Frame := mkFrame {
  Function : string;
  File : string;
  Line : Z
}.

(** The part of [logrus.Logger] the hook reads. *)
Record Logger := mkLogger {
  ReportCaller : bool
}.

(** [logrus.Entry]. [Data] is a reference to the map object. logrus makes
    the map with [make] in every entry its constructors return; an entry
    written as a struct literal has the nil map, which is a reference with
    no map object in the heap: a write through it panics. *)
Record Entry := mkEntry {
  Logger_ : option Logger;
  Data : mref;
  Time : Z;
  Level_ : Level;
  Caller : option Frame;
  Message : string
}.

(** The heap: entry objects and map objects. *)
Record Heap := mkHeap {
  entries : gmap positive Entry;
  maps : gmap positive (gmap string value)
}.

(** [io.Writer]s: the standard error stream or some other sink. *)
Inductive Writer :=
  | os_Stderr
  | Sink (id : positive).

#[global] Instance Writer_eq_dec : EqDecision Writer.
Proof. solve_decision. Defined.

(** What a Go call gives: it returns, it blocks (the caller is suspended in
    the present state), or the goroutine panics. *)
Inductive Result (A : Type) :=
  | Ok (a : A)
  | Blocked
  | Panic (msg : string).
Arguments Ok {A} a.
Arguments Blocked {A}.
Arguments Panic {A} msg.

Definition bindR {A B} (r : Result A) (k : A → Result B) : Result B :=
  match r with
  | Ok a => k a
  | Blocked => Blocked
  | Panic msg => Panic msg
  end.

Notation "'let!' x ':=' r 'in' k" := (bindR r (fun x => k))
  (at level 10, x pattern, r at level 100, k at level 200, only parsing).

Definition nil_dereference : string :=
  "invalid memory address or nil pointer dereference".

Definition of_option {A} (o : option A) : Result A :=
  match o with
  | Some a => Ok a
  | None => Panic nil_dereference
  end.

(** ** Heap access *)

Definition loadEntry (hp : Heap) (p : ptr) : Result Entry :=
  of_option (entries hp !! p).

Definition loadMap (hp : Heap) (m : mref) : Result Fields :=
  of_option (maps hp !! m).

Definition storeEntry (hp : Heap) (p : ptr) (e : Entry) : Heap :=
  mkHeap (<[p := e]> (entries hp)) (maps hp).

Definition storeMap (hp : Heap) (m : mref) (d : Fields) : Heap :=
  mkHeap (entries hp) (<[m := d]> (maps hp)).

(** [entry.Data[k]] with the comma-ok form. *)
Definition getField (hp : Heap) (entry : ptr) (k : string) : Result (option value) :=
  let! e := loadEntry hp entry in
  let! d := loadMap hp (Data e) in
  Ok (d !! k).

(** [entry.Data[k] = v]. *)
Definition setField (hp : Heap) (entry : ptr) (k : string) (v : value) : Result Heap :=
  let! e := loadEntry hp entry in
  let! d := loadMap hp (Data e) in
  Ok (storeMap hp (Data e) (<[k := v]> d)).

(** The contents an entry pointer gives access to. *)
Definition deref (hp : Heap) (p : ptr) : option (Entry * Fields) :=
  e ← entries hp !! p; d ← maps hp !! Data e; Some (e, d).

(** ** Collaborators outside the package *)

(** One recorded call of the backend's [Exec]: the entry the pipeline was
    run on, the pointer [Exec] was given ([None] is nil), what that pointer
    gave access to at the time, and the error returned ([None] is nil). *)
Record ExecCall := mkExecCall {
  job : ptr;
  arg : option ptr;
  seen : option (Entry * Fields);
  err : option string
}.

(** The state the hook's methods thread: the heap, the calls made to the
    backend, the lines written to output sinks, and the lines logged
    through logrus' standard logger. *)
Record World := mkWorld {
  heap : Heap;
  execs : list ExecCall;
  written : list (Writer * string);
  logged : list string
}.

Definition set_heap (w : World) (hp : Heap) : World :=
  mkWorld hp (execs w) (written w) (logged w).

(** [runtime.Callers(6, ·)] with its frames resolved by [runtime.FuncForPC],
    innermost first, and [runtime.Caller(8)] ([None] when its [ok] is
    false), as they stand during one call of [Fire]. *)
Record Runtime := mkRuntime {
  Callers6 : list Frame;
  Caller8 : option Frame
}.

(** The two lookups on one stack, whose frames are listed from the one
    [runtime.Callers(6, ·)] starts at: [runtime.Callers] counts from itself
    and [runtime.Caller] from its caller, so [runtime.Caller(8)] in [Fire]
    is the frame that follows the three [runtime.Callers(6, pc)] fills
    in. *)
Definition onStack (frames : list Frame) : Runtime :=
  mkRuntime frames (frames !! 3%nat).

(** The interface [ExecCloser], by the method the hook calls: [Exec] gets
    the entry pointer and answers with an error or nil. *)
Record ExecCloser := mkExecCloser {
  Exec : option ptr → Heap → option string
}.

(** [FilterHandle]: a Go function from entry pointer to entry pointer, free
    to change the heap and to return nil. *)
Definition FilterHandle := ptr → Heap → option ptr * Heap.

(** Modelled from the spec: the job queue of github.com/pm-esd/queue, whose
    source is not part of the package. A job pairs a payload with a
    callback; every job the hook makes has the callback
    [func(v) { h.exec(v) }], so a job is kept by its payload. The queue has
    a buffer of fixed capacity and a fixed number of workers; [inflight]
    holds the jobs workers have taken and not yet finished. *)
Record Job := NewJob {
  payload : ptr
}.

Record Queue := mkQueue {
  capacity : Z;
  workers : Z;
  running : bool;
  buffer : list Job;
  inflight : list Job
}.

Definition NewQueue (maxCapacity maxThread : Z) : Queue :=
  mkQueue maxCapacity maxThread false [] [].

Definition Run (q : Queue) : Queue :=
  mkQueue (capacity q) (workers q) true (buffer q) (inflight q).

(** Modelled from the spec: [Push] enqueues when there is room, blocks the
    caller while the buffer is full, and accepts nothing once the queue is
    terminated. *)
Definition Push (q : Queue) (j : Job) : Result Queue :=
  if running q then
    if decide (Z.of_nat (length (buffer q)) < capacity q)
    then Ok (mkQueue (capacity q) (workers q) true (buffer q ++ [j]) (inflight q))
    else Blocked
  else Ok q.

(** ** Options *)

Record options := mkOptions {
  maxQueues : Z;
  maxWorkers : Z;
  extra : option Fields;
  exec : option ExecCloser;
  filter : option FilterHandle;
  levels : list Level;
  out : option Writer
}.

Definition defaultOptions : options := {|
  maxQueues := 512;
  maxWorkers := 2;
  extra := None;
  exec := None;
  filter := None;
  levels := [FatalLevel; ErrorLevel; WarnLevel; InfoLevel; DebugLevel];
  out := Some os_Stderr
|}.

Definition Option := options → options.

Definition SetMaxQueues (n : Z) : Option := fun o =>
  mkOptions n (maxWorkers o) (extra o) (exec o) (filter o) (levels o) (out o).

Definition SetMaxWorkers (n : Z) : Option := fun o =>
  mkOptions (maxQueues o) n (extra o) (exec o) (filter o) (levels o) (out o).

Definition SetExtra (x : option Fields) : Option := fun o =>
  mkOptions (maxQueues o) (maxWorkers o) x (exec o) (filter o) (levels o) (out o).

Definition SetExec (x : option ExecCloser) : Option := fun o =>
  mkOptions (maxQueues o) (maxWorkers o) (extra o) x (filter o) (levels o) (out o).

Definition SetFilter (f : option FilterHandle) : Option := fun o =>
  mkOptions (maxQueues o) (maxWorkers o) (extra o) (exec o) f (levels o) (out o).

Definition SetLevels (ls : list Level) : Option := fun o =>
  match ls with
  | [] => o
  | _ => mkOptions (maxQueues o) (maxWorkers o) (extra o) (exec o) (filter o) ls (out o)
  end.

Definition SetOut (x : option Writer) : Option := fun o =>
  mkOptions (maxQueues o) (maxWorkers o) (extra o) (exec o) (filter o) (levels o) x.

(** ** The hook *)

Record Hook := mkHook {
  opts : options;
  q : Queue
}.

Definition logrus_Info (msg : string) (w : World) : World :=
  mkWorld (heap w) (execs w) (written w) (logged w ++ [msg]).

Definition New (opt : list Option) (w : World) : Hook * World :=
  let opts := foldl (fun o f => f o) defaultOptions opt in
  let w := match exec opts with
           | None => logrus_Info "Unknown Execer interface implementation" w
           | Some _ => w
           end in
  let q := Run (NewQueue (maxQueues opts) (maxWorkers opts)) in
  (mkHook opts q, w).

Definition Hook_Levels (h : Hook) : list Level := levels (opts h).

(** [logrus.Entry.HasCaller]. *)
Definition HasCaller (e : Entry) : bool :=
  match Logger_ e with
  | Some l => ReportCaller l && bool_decide (is_Some (Caller e))
  | None => false
  end.

Definition logrus_path : string := "github.com/sirupsen/logrus".

(** Both assignments of a resolved frame. *)
Definition writeFrame (fr : Frame) (entry : ptr) (hp : Heap) : Result Heap :=
  let! hp := setField hp entry "file" (VString (Sprintf_file_line (File fr) (Line fr))) in
  setField hp entry "func" (VString (Base (Function fr))).

(** The loop of [Fire] over the frames [runtime.Callers] has filled in. *)
Fixpoint walkFrames (pc : list Frame) (rt : Runtime) (entry : ptr) (hp : Heap)
  : Result Heap :=
  match pc with
  | [] => Ok hp
  | fu :: rest =>
      if negb (Contains (Function fu) logrus_path)
      then writeFrame fu entry hp
      else
        let! hp := match Caller8 rt with
                   | Some fr => writeFrame fr entry hp
                   | None => Ok hp
                   end in
        walkFrames rest rt entry hp
  end.

(** The loop of [copyEntry] over the pairs of the original's map. *)
Fixpoint copyFields (kvs : list (string * value)) (entry : ptr) (hp : Heap)
  : Result Heap :=
  match kvs with
  | [] => Ok hp
  | (k, v) :: rest =>
      let! hp := setField hp entry k v in
      copyFields rest entry hp
  end.

(** The map references the entries of the heap hold. *)
Definition held (hp : Heap) : gset positive :=
  list_to_set ((fun kv : positive * Entry => Data kv.2) <$> map_to_list (entries hp)).

(** The reference of a map made by [make]: no map object has it and no
    entry holds it, so that a nil map stays nil. *)
Definition newMap (hp : Heap) : mref := fresh (dom (maps hp) ∪ held hp).
Arguments newMap : simpl never.

(** [logrus.NewEntry]: a new entry with the logger set, a map of its own
    and every other field at its zero value. *)
Definition NewEntry (logger : option Logger) (hp : Heap) : ptr * Heap :=
  let m := newMap hp in
  let p := fresh (dom (entries hp)) in
  (p, mkHeap (<[p := mkEntry logger m 0 PanicLevel None ""]> (entries hp))
             (<[m := ∅]> (maps hp))).

(** [make(logrus.Fields)]. *)
Definition makeFields (hp : Heap) : mref * Heap :=
  let m := newMap hp in
  (m, storeMap hp m ∅).

Definition Hook_copyEntry (h : Hook) (e : ptr) (hp : Heap) : Result (ptr * Heap) :=
  let! src := loadEntry hp e in
  let '(entry, hp) := NewEntry (Logger_ src) hp in
  let '(m, hp) := makeFields hp in
  let! new := loadEntry hp entry in
  let hp := storeEntry hp entry
              (mkEntry (Logger_ new) m (Time src) (Level_ src) (Caller new) (Message src)) in
  let! d := loadMap hp (Data src) in
  let! hp := copyFields (map_to_list d) entry hp in
  Ok (entry, hp).

(** The loop of [exec] over the pairs of the extras. *)
Fixpoint mergeExtra (kvs : list (string * value)) (entry : ptr) (hp : Heap)
  : Result Heap :=
  match kvs with
  | [] => Ok hp
  | (k, v) :: rest =>
      let! present := getField hp entry k in
      let! hp := match present with
                 | Some _ => Ok hp
                 | None => setField hp entry k v
                 end in
      mergeExtra rest entry hp
  end.

Definition Hook_exec (h : Hook) (entry : ptr) (w : World) : Result World :=
  let! hp := match extra (opts h) with
             | Some x => mergeExtra (map_to_list x) entry (heap w)
             | None => Ok (heap w)
             end in
  let '(filtered, hp) := match filter (opts h) with
                         | Some f => f entry hp
                         | None => (Some entry, hp)
                         end in
  let! backend := of_option (exec (opts h)) in
  let e := Exec backend filtered hp in
  let w := mkWorld hp (execs w ++ [mkExecCall entry filtered (filtered ≫= deref hp) e])
                   (written w) (logged w) in
  match e, out (opts h) with
  | Some msg, Some o =>
      Ok (mkWorld (heap w) (execs w) (written w ++ [(o, Sprintf_exec_error msg)]) (logged w))
  | _, _ => Ok w
  end.

(** The first statement of [Fire]: the call site is looked for when the
    entry has a caller, in the three frames [runtime.Callers(6, pc)] can
    fill in. *)
Definition callSite (rt : Runtime) (entry : ptr) (hp : Heap) : Result Heap :=
  let! e := loadEntry hp entry in
  if HasCaller e
  then walkFrames (take 3 (Callers6 rt)) rt entry hp
  else Ok hp.

Definition Hook_Fire (h : Hook) (rt : Runtime) (entry : ptr) (w : World)
  : Result (Hook * World * option string) :=
  let! hp := callSite rt entry (heap w) in
  let! (entry, hp) := Hook_copyEntry h entry hp in
  let! q := Push (q h) (NewJob entry) in
  Ok (mkHook (opts h) q, set_heap w hp, None).

(** ** Producers and workers

    Producers call [Fire] while the queue's workers take jobs from the
    buffer and run them. One step of the whole is a call of [Fire], a
    worker taking the job at the head of the buffer, or a worker finishing
    the job it holds by running its callback, [h.exec]. A panic in any
    goroutine ends the process. *)

(** An entry pointer is valid when it leads to an entry and on to its map;
    a producer has no other pointers to pass. *)
Definition valid (hp : Heap) (p : ptr) : Prop := is_Some (deref hp p).

#[global] Instance valid_dec hp p : Decision (valid hp p).
Proof. unfold valid. apply _. Defined.

Inductive System :=
  | Live (h : Hook) (w : World)
  | Crashed (msg : string) (w : World).

Inductive label :=
  | LFire (entry : ptr) (rt : Runtime)
  | LTake
  | LFinish (i : nat).

(** What a step shows: the jobs a call of [Fire] added to the buffer, the
    job a worker took, the job a worker finished, a crash. *)
Inductive event :=
  | Fired (js : list Job)
  | Taken (j : Job)
  | Finished (j : Job)
  | Crash (msg : string).

Definition set_queue (h : Hook) (b i : list Job) : Hook :=
  mkHook (opts h) (mkQueue (capacity (q h)) (workers (q h)) (running (q h)) b i).

Definition step (l : label) (σ : System) : option (event * System) :=
  match σ with
  | Crashed _ _ => None
  | Live h w =>
      match l with
      | LFire entry rt =>
          if decide (valid (heap w) entry) then
            match Hook_Fire h rt entry w with
            | Ok (h', w', _) =>
                Some (Fired (drop (length (buffer (q h))) (buffer (q h'))), Live h' w')
            | Blocked => None
            | Panic msg => Some (Crash msg, Crashed msg w)
            end
          else None
      | LTake =>
          match buffer (q h) with
          | j :: rest =>
              if decide (Z.of_nat (length (inflight (q h))) < workers (q h))
              then Some (Taken j, Live (set_queue h rest (inflight (q h) ++ [j])) w)
              else None
          | [] => None
          end
      | LFinish i =>
          match inflight (q h) !! i with
          | Some j =>
              match Hook_exec h (payload j) w with
              | Ok w' =>
                  Some (Finished j, Live (set_queue h (buffer (q h)) (delete i (inflight (q h)))) w')
              | Blocked => None
              | Panic msg => Some (Crash msg, Crashed msg w)
              end
          | None => None
          end
      end
  end.

(** A schedule is run step by step; [None] when one of its steps cannot be
    taken. *)
Fixpoint run (sched : list label) (σ : System) : option (list event * System) :=
  match sched with
  | [] => Some ([], σ)
  | l :: rest =>
      match step l σ with
      | Some (ev, σ') =>
          match run rest σ' with
          | Some (evs, σ'') => Some (ev :: evs, σ'')
          | None => None
          end
      | None => None
      end
  end.

Definition submitted (evs : list event) : list Job :=
  evs ≫= (fun ev => match ev with Fired js => js | _ => [] end).

Definition finished (evs : list event) : list Job :=
  evs ≫= (fun ev => match ev with Finished j => [j] | _ => [] end).

(** Modelled from the spec: [Terminate] makes the queue accept no more
    jobs, waits until the buffered and the running jobs have completed, and
    returns. [sched] is what the other goroutines do meanwhile; the call is
    still blocked when the schedule ends with a job left. *)
Definition Terminate (sched : list label) (h : Hook) (w : World)
  : Result (list event * Hook * World) :=
  let closed := mkHook (opts h)
                  (mkQueue (capacity (q h)) (workers (q h)) false
                           (buffer (q h)) (inflight (q h))) in
  match run sched (Live closed w) with
  | Some (evs, Live h' w') =>
      if decide (buffer (q h') = [] ∧ inflight (q h') = [])
      then Ok (evs, h', w')
      else Blocked
  | Some (evs, Crashed msg _) => Panic msg
  | None => Blocked
  end.

Definition Hook_Flush (sched : list label) (h : Hook) (w : World)
  : Result (list event * Hook * World) :=
  Terminate sched h w.

(** ** The constructors with a backend of the package

    [NewExec] and [NewExecWithURL] and the client type they take are
    declared outside [hook.go]; they are taken as they come. Both return a
    backend, never nil. *)

Section Defaults.
Variable MongoDBClient : Type.
Variable NewExec : MongoDBClient → string → ExecCloser.
Variable NewExecWithURL : MongoDBClient → string → ExecCloser.

Definition Default (sess : MongoDBClient) (cName : string) (opts : list Option)
  (w : World) : Hook * World :=
  let options := [] in
  let options := (options ++ opts)%list in
  let options := (options ++ [SetExec (Some (NewExec sess cName))])%list in
  New options w.

Definition DefaultWithURL (sess : MongoDBClient) (cName : string) (opts : list Option)
  (w : World) : Hook * World :=
  let options := [] in
  let options := (options ++ opts)%list in
  let options := (options ++ [SetExec (Some (NewExecWithURL sess cName))])%list in
  New options w.
End Defaults.

(** ** Notions the statements use *)

(** One assignment of the copy loop, on the contents of the map. *)
Definition assign (acc : Fields) (kv : string * value) : Fields :=
  <[kv.1 := kv.2]> acc.

(** The two fields a resolved frame gives. *)
Definition frameFields (fr : Frame) (d : Fields) : Fields :=
  <["func" := VString (Base (Function fr))]>
    (<["file" := VString (File fr +:+ ":" +:+ pretty (Line fr))]> d).

(** Following the spec's words: a frame belongs to the logrus library when
    its function is one of the package at the library's path, or of a
    package below that path. *)
Definition belongsToLogrus (fr : Frame) : bool :=
  HasPrefix (Function fr) (logrus_path +:+ ".") ||
  HasPrefix (Function fr) (logrus_path +:+ "/").

(** The test the loop of [Fire] makes on a frame's function name. *)
Definition insideLogrus (fr : Frame) : bool := Contains (Function fr) logrus_path.

(** Following the spec's words: the frame the resolver settles on is the
    first one of the window outside logrus, and the fixed-depth caller when
    the window has frames and all of them are inside logrus. *)
Definition resolveCallSite (window : list Frame) (fallback : option Frame)
  : option Frame :=
  match List.find (fun fr => negb (insideLogrus fr)) window with
  | Some fr => Some fr
  | None => match window with
            | [] => None
            | _ :: _ => fallback
            end
  end.

(** The map [d] once the resolver has run on it. *)
Definition resolvedFields (rt : Runtime) (d : Fields) : Fields :=
  match resolveCallSite (take 3 (Callers6 rt)) (Caller8 rt) with
  | Some fr => frameFields fr d
  | None => d
  end.

(** The lines the pipeline writes for the answer of [Exec]. *)
Definition diagnostics (o : option Writer) (e : option string) : list (Writer * string) :=
  match e, o with
  | Some msg, Some o => [(o, Sprintf_exec_error msg)]
  | _, _ => []
  end.

(** What one step between live states keeps and what it changes. *)
Record accounts (h : Hook) (w : World) (evs : list event) (h' : Hook) (w' : World)
  : Prop := mkAccounts {
  acc_opts : opts h' = opts h;
  acc_capacity : capacity (q h') = capacity (q h);
  acc_workers : workers (q h') = workers (q h);
  acc_running : running (q h') = running (q h);
  acc_closed : running (q h) = false → submitted evs = [];
  acc_jobs :
    (submitted evs ++ buffer (q h) ++ inflight (q h))%list
    ≡ₚ (buffer (q h') ++ inflight (q h') ++ finished evs)%list;
  acc_calls : ∃ calls,
    execs w' = (execs w ++ calls)%list ∧
    NewJob <$> (job <$> calls) = finished evs ∧
    Forall (fun c => ∃ b hp, exec (opts h) = Some b ∧ err c = Exec b (arg c) hp) calls ∧
    written w' = (written w ++ (calls ≫= fun c => diagnostics (out (opts h)) (err c)))%list;
  acc_logged : logged w' = logged w
}.

(** What an entry shows its reader: time, level, message and fields. *)
Definition view (x : Entry * Fields) : Z * Level * string * Fields :=
  (Time x.1, Level_ x.1, Message x.1, x.2).

(** A view with the extras merged in, the view's own pairs first. *)
Definition withExtras (x : Fields) (v : Z * Level * string * Fields)
  : Z * Level * string * Fields :=
  (v.1, v.2 ∪ x).

(** The entries a schedule calls [Fire] on. *)
Definition fires (sched : list label) : list ptr :=
  sched ≫= (fun l => match l with LFire p _ => [p] | _ => [] end).

(** The entries fired along a schedule, each as it shows in the heap when
    its call of [Fire] has returned. *)
Fixpoint fired (sched : list label) (σ : System)
  : list (option (Z * Level * string * Fields)) :=
  match sched with
  | [] => []
  | l :: rest =>
      match step l σ with
      | Some (_, σ') =>
          (match l, σ' with
           | LFire p _, Live _ w' => [view <$> deref (heap w') p]
           | _, _ => []
           end ++ fired rest σ')%list
      | None => []
      end
  end.

(** What the backend was shown, call by call. *)
Definition seenViews (calls : list ExecCall)
  : list (option (Z * Level * string * Fields)) :=
  (fun c => view <$> seen c) <$> calls.

(** The fired entries as the pipeline is to show them: with the extras. *)
Definition expected (x : Fields) (vs : list (option (Z * Level * string * Fields)))
  : list (option (Z * Level * string * Fields)) :=
  (fun v : option (Z * Level * string * Fields) => withExtras x <$> v) <$> vs.

Definition mergedViews (x : Fields) (vs : list (Z * Level * string * Fields))
  : list (option (Z * Level * string * Fields)) :=
  (fun v : Z * Level * string * Fields => Some (withExtras x v)) <$> vs.

(** A queued job with the view its copy was made with: the copy is in the
    heap as it was made, it has no caller, and no other entry holds its
    map. *)
Definition snapshot_ok (w : World) (j : Job) (v : Z * Level * string * Fields) : Prop :=
  ∃ e' d,
    deref (heap w) (payload j) = Some (e', d) ∧ v = view (e', d) ∧
    Caller e' = None ∧
    ∀ x ex, entries (heap w) !! x = Some ex → Data ex = Data e' → x = payload j.

Definition pending_ok (h : Hook) (w : World)
  (pend : list (Job * (Z * Level * string * Fields))) : Prop :=
  pend.*1 ≡ₚ (buffer (q h) ++ inflight (q h))%list ∧
  NoDup pend.*1 ∧
  Forall (fun jv => snapshot_ok w jv.1 jv.2) pend.

(** Go frees nothing that is still referred to: a filter keeps valid
    pointers valid. *)
Definition filter_safe (o : options) : Prop :=
  ∀ f, filter o = Some f → ∀ p hp x, valid hp x → valid (f p hp).2 x.

(** The payload of every job the queue holds is valid. *)
Definition queued_valid (h : Hook) (w : World) : Prop :=
  Forall (fun j => valid (heap w) (payload j)) (buffer (q h) ++ inflight (q h)).

(** A schedule that completes the jobs of a queue: the running ones first,
    then the buffered ones, one after the other. *)
Definition drain (h : Hook) : list label :=
  (replicate (length (inflight (q h))) (LFinish 0) ++
   concat (replicate (length (buffer (q h))) [LTake; LFinish 0]))%list.

(** ** Concrete inputs *)

Definition main_frame : Frame :=
  mkFrame "github.com/acme/shop/cart.(*Cart).Add" "/src/cart.go" 42.

Definition logrus_frame : Frame :=
  mkFrame "github.com/sirupsen/logrus.(*Entry).Info" "/logrus/entry.go" 300.

Definition rt1 : Runtime := mkRuntime [logrus_frame; main_frame] None.

Definition fields1 : Fields := {[ "user" := VString "bob"; "cart" := VRef 9 ]}.

Definition entry1 : Entry :=
  mkEntry (Some (mkLogger true)) 1 1700000000 InfoLevel (Some main_frame) "added".

(** One entry with its map. *)
Definition heap1 : Heap :=
  mkHeap {[ 1%positive := entry1 ]} {[ 1%positive := fields1 ]}.

Definition world1 : World := mkWorld heap1 [] [] [].



(** A frame of a package that is not logrus, whose path begins like
    logrus', in front of the caller's frame. *)
Definition foreign_frame : Frame :=
  mkFrame "github.com/sirupsen/logrusx.Run" "/src/logrusx/run.go" 7.

Definition rt_foreign : Runtime := mkRuntime [foreign_frame; main_frame] None.

(** Five entries, each with a map of its own. *)
Definition entry_at (n : positive) : Entry :=
  mkEntry (Some (mkLogger false)) n (1700000000 + Z.pos n) WarnLevel None "low stock".

Definition heap5 : Heap :=
  mkHeap (list_to_map ((fun n => (n, entry_at n)) <$> [1; 2; 3; 4; 5]%positive))
         (list_to_map ((fun n => (n, {[ "item" := VInt (Z.pos n) ]})) <$> [1; 2; 3; 4; 5]%positive)).

Definition world5 : World := mkWorld heap5 [] [] [].


Definition extras1 : Fields :=
  {[ "user" := VString "nobody"; "host" := VString "web-1" ]}.

Definition disk_full : ExecCloser := mkExecCloser (fun _ _ => Some "disk full").

Definition always_ok : ExecCloser := mkExecCloser (fun _ _ => None).

Definition identity_filter : FilterHandle := fun p hp => (Some p, hp).


(** Five entries fired while the two workers take and finish jobs. *)
Definition staggered_schedule : list label :=
  [LFire 1%positive rt1; LFire 2%positive rt1; LTake; LFire 3%positive rt1; LTake;
   LFinish 1; LFire 4%positive rt1; LFinish 0; LFire 5%positive rt1].

(** A filter that suppresses the entry: it returns nil. *)
Definition nil_filter : FilterHandle := fun _ hp => (None, hp).

(** A stack whose first three frames are inside logrus. *)
Definition deep_stack : list Frame := [logrus_frame; logrus_frame; logrus_frame].

Definition queue_options : list Option :=
  [SetMaxQueues 1; SetMaxQueues 8; SetMaxWorkers 4; SetLevels []; SetOut None].

Definition silent_options : list Option :=
  [SetExec (Some disk_full); SetOut None].

Definition suppressing_options : list Option :=
  [SetExec (Some always_ok); SetExtra (Some extras1); SetFilter (Some nil_filter)].

Definition merging_options : list Option :=
  [SetExec (Some always_ok); SetExtra (Some extras1)].

(** * Proofs *)

(** ** Results *)

Lemma bindR_Ok {A B} (r : Result A) (k : A → Result B) (b : B) :
  bindR r k = Ok b → ∃ a, r = Ok a ∧ k a = Ok b.
Proof. destruct r; simpl; intros; try discriminate; eauto. Qed.

(** ** The heap *)

Lemma deref_Some hp p e d :
  deref hp p = Some (e, d) ↔ entries hp !! p = Some e ∧ maps hp !! Data e = Some d.
Proof.
  unfold deref. split.
  - destruct (entries hp !! p) as [e'|] eqn:He; simpl; [|done].
    destruct (maps hp !! Data e') as [d'|] eqn:Hd; simpl; [|done].
    intros [= <- <-]. done.
  - intros [-> Hd]. simpl. by rewrite Hd.
Qed.

Lemma storeMap_id hp m d : maps hp !! m = Some d → storeMap hp m d = hp.
Proof. intros Hm. destruct hp as [es ms]. unfold storeMap; simpl in *. by rewrite insert_id. Qed.

Lemma storeMap_storeMap hp m d d' : storeMap (storeMap hp m d) m d' = storeMap hp m d'.
Proof. unfold storeMap; simpl. by rewrite insert_insert_eq. Qed.

Lemma deref_storeMap_eq hp p e d d' :
  deref hp p = Some (e, d) → deref (storeMap hp (Data e) d') p = Some (e, d').
Proof.
  rewrite !deref_Some. intros [He _]. split; [done|]. simpl. apply lookup_insert_eq.
Qed.

Lemma deref_storeMap_ne hp m x p e d :
  deref hp p = Some (e, d) → Data e ≠ m → deref (storeMap hp m x) p = Some (e, d).
Proof.
  rewrite !deref_Some. intros [He Hd] Hne. split; [done|]. simpl.
  by rewrite lookup_insert_ne.
Qed.

Lemma valid_storeMap hp m d x p :
  maps hp !! m = Some d → valid hp p → valid (storeMap hp m x) p.
Proof.
  intros Hm [[e d'] Hp]. destruct (decide (Data e = m)) as [<-|Hne].
  - exists (e, x). by eapply deref_storeMap_eq.
  - exists (e, d'). by apply deref_storeMap_ne.
Qed.

Lemma getField_deref hp p e d k :
  deref hp p = Some (e, d) → getField hp p k = Ok (d !! k).
Proof.
  rewrite deref_Some. intros [He Hd]. unfold getField, loadEntry, loadMap.
  rewrite He; simpl. by rewrite Hd.
Qed.

Lemma setField_deref hp p e d k v :
  deref hp p = Some (e, d) →
  setField hp p k v = Ok (storeMap hp (Data e) (<[k := v]> d)).
Proof.
  rewrite deref_Some. intros [He Hd]. unfold setField, loadEntry, loadMap.
  rewrite He; simpl. by rewrite Hd.
Qed.

(** ** The merge step of the pipeline *)

(** The map the merge loop leaves: the entry's own pairs, and of the extras
    those whose key the entry does not have. *)
Lemma mergeExtra_deref kvs : ∀ hp p e d,
  deref hp p = Some (e, d) →
  mergeExtra kvs p hp = Ok (storeMap hp (Data e) (d ∪ list_to_map kvs)).
Proof.
  induction kvs as [|[k v] rest IH]; intros hp p e d Hp; simpl.
  - rewrite (right_id_L ∅ (∪)). rewrite storeMap_id; [done|].
    by apply deref_Some in Hp as [_ ?].
  - rewrite (getField_deref _ _ _ _ _ Hp); simpl.
    destruct (d !! k) as [v0|] eqn:Hk; simpl.
    + rewrite (IH _ _ _ _ Hp). do 2 f_equal.
      apply map_eq; intros i. rewrite !lookup_union.
      destruct (decide (k = i)) as [<-|Hne].
      * rewrite Hk, lookup_insert_eq. by destruct (list_to_map rest !! k).
      * by rewrite lookup_insert_ne.
    + rewrite (setField_deref _ _ _ _ _ _ Hp); simpl.
      rewrite (IH _ _ e (<[k := v]> d)); [|by apply deref_storeMap_eq with d].
      rewrite storeMap_storeMap. do 2 f_equal.
      by rewrite <- insert_union_l, insert_union_r.
Qed.

(** (C3) The merge step copies an extra into the entry's map only under a
    key the entry does not have: whatever order the extras are ranged over
    in, a key the entry has keeps the entry's value, any other key gets the
    extra's value if the extras have one, and nothing else in the heap
    changes. *)
Theorem C3_merge_keeps_entry_values :
  ∀ (x : Fields) (kvs : list (string * value)) hp p e d,
    kvs ≡ₚ map_to_list x →
    deref hp p = Some (e, d) →
    ∃ d',
      mergeExtra kvs p hp = Ok (storeMap hp (Data e) d') ∧
      deref (storeMap hp (Data e) d') p = Some (e, d') ∧
      (∀ k v, d !! k = Some v → d' !! k = Some v) ∧
      (∀ k, d !! k = None → d' !! k = x !! k).
Proof.
  intros x kvs hp p e d Hperm Hp. exists (d ∪ x).
  assert (list_to_map kvs = x) as Hx.
  { rewrite <- (list_to_map_to_list x). apply list_to_map_proper; [|done].
    rewrite Hperm. apply NoDup_fst_map_to_list. }
  split; [|split; [|split]].
  - rewrite (mergeExtra_deref _ _ _ _ _ Hp). by rewrite Hx.
  - by eapply deref_storeMap_eq.
  - intros k v Hk. by apply lookup_union_Some_l.
  - intros k Hk. rewrite lookup_union_r; done.
Qed.

(** ** The snapshot *)

Lemma copyFields_deref kvs : ∀ hp c e d0,
  deref hp c = Some (e, d0) →
  copyFields kvs c hp = Ok (storeMap hp (Data e) (foldl assign d0 kvs)).
Proof.
  induction kvs as [|[k v] rest IH]; intros hp c e d0 Hc; simpl.
  - rewrite storeMap_id; [done|]. by apply deref_Some in Hc as [_ ?].
  - rewrite (setField_deref _ _ _ _ _ _ Hc); simpl.
    rewrite (IH _ _ e (<[k := v]> d0)); [|by apply deref_storeMap_eq with d0].
    by rewrite storeMap_storeMap.
Qed.

Lemma foldl_assign_NoDup kvs : ∀ d0,
  NoDup kvs.*1 → foldl assign d0 kvs = list_to_map kvs ∪ d0.
Proof.
  induction kvs as [|[k v] rest IH]; intros d0 Hnd; simpl.
  - by rewrite (left_id_L ∅ (∪)).
  - apply NoDup_cons in Hnd as [Hk Hnd]. rewrite (IH _ Hnd). unfold assign; simpl.
    rewrite <- insert_union_l.
    rewrite insert_union_r; [done|]. by apply not_elem_of_list_to_map_1.
Qed.

Lemma foldl_assign_map_to_list (d : Fields) : foldl assign ∅ (map_to_list d) = d.
Proof.
  rewrite foldl_assign_NoDup by apply NoDup_fst_map_to_list.
  by rewrite (right_id_L ∅ (∪)), list_to_map_to_list.
Qed.

Lemma newMap_fresh hp : newMap hp ∉ dom (maps hp).
Proof.
  unfold newMap. intros Hin.
  apply (is_fresh (dom (maps hp) ∪ held hp)). by apply elem_of_union_l.
Qed.

Lemma newMap_unheld hp x ex : entries hp !! x = Some ex → Data ex ≠ newMap hp.
Proof.
  intros Hx Heq. assert (Data ex ∈ held hp) as Hin.
  { unfold held. apply elem_of_list_to_set.
    apply (list_elem_of_fmap_2 (fun kv : positive * Entry => Data kv.2) _ (x, ex)).
    by apply elem_of_map_to_list. }
  rewrite Heq in Hin. apply (is_fresh (dom (maps hp) ∪ held hp)).
  by apply elem_of_union_r.
Qed.

(** What [copyEntry] returns, spelled out. *)
Lemma Hook_copyEntry_deref h hp p e d :
  deref hp p = Some (e, d) →
  let m0 := newMap hp in
  let c := fresh (dom (entries hp)) in
  let m := newMap (NewEntry (Logger_ e) hp).2 in
  let e' := mkEntry (Logger_ e) m (Time e) (Level_ e) None (Message e) in
  Hook_copyEntry h p hp =
    Ok (c, mkHeap (<[c := e']> (entries hp)) (<[m := d]> (<[m0 := ∅]> (maps hp)))).
Proof.
  intros Hp m0 c m e'. pose proof Hp as Hp'. apply deref_Some in Hp' as [He Hd].
  assert (m0 ∉ dom (maps hp)) as Hm0 by apply newMap_fresh.
  assert (m ∉ dom (<[m0 := ∅]> (maps hp))) as Hm by apply newMap_fresh.
  assert (c ∉ dom (entries hp)) as Hc by apply is_fresh.
  assert (Data e ≠ m) as Hne.
  { intros Heq. apply Hm. rewrite <- Heq, dom_insert. apply elem_of_union_r.
    apply elem_of_dom. eauto. }
  unfold Hook_copyEntry, loadEntry. rewrite He; simpl.
  fold m0 c. unfold makeFields; simpl. fold m.
  rewrite lookup_insert_eq; simpl.
  unfold loadMap; simpl. rewrite lookup_insert_ne by done.
  assert (Data e ≠ m0) as Hne0.
  { intros Heq. apply Hm0. rewrite <- Heq. apply elem_of_dom. eauto. }
  rewrite lookup_insert_ne by done. rewrite Hd; simpl.
  rewrite (copyFields_deref _ _ _ e' ∅); simpl.
  - rewrite foldl_assign_map_to_list. unfold storeMap; simpl.
    by rewrite !insert_insert_eq.
  - apply deref_Some; simpl. rewrite !lookup_insert_eq. done.
Qed.

(** (C5) [copyEntry] returns a new entry object whose map is a new map
    object holding the very pairs of the original's map, values as they
    are, and whose time, level and message are the original's; the original
    is left as it was, and whatever is later stored in the original's map
    leaves the copy as it is. *)
Theorem C5_copyEntry_snapshot :
  ∀ h hp p e d,
    deref hp p = Some (e, d) →
    ∃ c hp' e',
      Hook_copyEntry h p hp = Ok (c, hp') ∧
      (c ∉ dom (entries hp)) ∧
      (Data e' ∉ dom (maps hp)) ∧
      Data e' ≠ Data e ∧
      deref hp' c = Some (e', d) ∧
      Time e' = Time e ∧ Level_ e' = Level_ e ∧ Message e' = Message e ∧
      deref hp' p = Some (e, d) ∧
      (∀ d2, deref (storeMap hp' (Data e) d2) c = Some (e', d)) ∧
      (∀ k v hp'', setField hp' p k v = Ok hp'' → deref hp'' c = Some (e', d)).
Proof.
  intros h hp p e d Hp. pose proof (Hook_copyEntry_deref h hp p e d Hp) as Hcopy.
  simpl in Hcopy.
  set (m0 := newMap hp) in *.
  set (c := fresh (dom (entries hp))) in *.
  set (m := newMap (mkHeap _ _)) in *.
  set (e' := mkEntry (Logger_ e) m (Time e) (Level_ e) None (Message e)) in *.
  set (hp' := mkHeap _ _) in Hcopy.
  pose proof Hp as Hp'. apply deref_Some in Hp' as [He Hd].
  assert (m0 ∉ dom (maps hp)) as Hm0 by apply newMap_fresh.
  assert (m ∉ dom (<[m0 := ∅]> (maps hp))) as Hm by apply newMap_fresh.
  assert (c ∉ dom (entries hp)) as Hc by apply is_fresh.
  assert (m ∉ dom (maps hp)) as Hm'.
  { intros Hin. apply Hm. rewrite dom_insert. by apply elem_of_union_r. }
  assert (m ≠ Data e) as Hne.
  { intros Heq. apply Hm'. rewrite Heq. apply elem_of_dom. eauto. }
  assert (m0 ≠ Data e) as Hne0.
  { intros Heq. apply Hm0. rewrite Heq. apply elem_of_dom. eauto. }
  assert (c ≠ p) as Hcp.
  { intros Heq. apply Hc. rewrite Heq. apply elem_of_dom. eauto. }
  assert (deref hp' c = Some (e', d)) as Hdc.
  { apply deref_Some; simpl. by rewrite !lookup_insert_eq. }
  assert (deref hp' p = Some (e, d)) as Hdp.
  { apply deref_Some; simpl. rewrite !lookup_insert_ne by done. done. }
  assert (∀ d2, deref (storeMap hp' (Data e) d2) c = Some (e', d)) as Hind.
  { intros d2. apply deref_storeMap_ne; done. }
  exists c, hp', e'. repeat split; try done.
  intros k v hp'' Hset. rewrite (setField_deref _ _ _ _ _ _ Hdp) in Hset.
  injection Hset as <-. apply Hind.
Qed.

(** ** The call site *)

Lemma frameFields_twice fr fr' d :
  frameFields fr (frameFields fr' d) = frameFields fr d.
Proof.
  unfold frameFields. apply map_eq; intros k.
  rewrite !lookup_insert. by repeat case_decide.
Qed.

Lemma writeFrame_deref fr hp p e d :
  deref hp p = Some (e, d) →
  writeFrame fr p hp = Ok (storeMap hp (Data e) (frameFields fr d)).
Proof.
  intros Hp. unfold writeFrame.
  rewrite (setField_deref _ _ _ _ _ _ Hp); simpl.
  erewrite setField_deref; [|by eapply deref_storeMap_eq].
  by rewrite storeMap_storeMap.
Qed.

Lemma walkFrames_deref rt p e pc : ∀ hp d,
  deref hp p = Some (e, d) →
  walkFrames pc rt p hp =
    Ok (storeMap hp (Data e)
          (match resolveCallSite pc (Caller8 rt) with
           | Some fr => frameFields fr d
           | None => d
           end)).
Proof.
  induction pc as [|fu rest IH]; intros hp d Hp; simpl.
  - rewrite storeMap_id; [done|]. by apply deref_Some in Hp as [_ ?].
  - unfold resolveCallSite; simpl. fold (insideLogrus fu).
    destruct (insideLogrus fu) eqn:Hfu; simpl.
    + destruct (Caller8 rt) as [f8|] eqn:H8.
      * rewrite (writeFrame_deref _ _ _ _ _ Hp); simpl.
        rewrite (IH _ (frameFields f8 d)) by (eapply deref_storeMap_eq, Hp).
        rewrite storeMap_storeMap. unfold resolveCallSite.
        destruct (List.find _ rest); [by rewrite frameFields_twice|].
        destruct rest; [done|]. by rewrite frameFields_twice.
      * simpl. rewrite (IH _ _ Hp). unfold resolveCallSite.
        destruct (List.find _ rest); [done|]. by destruct rest.
    + by apply writeFrame_deref.
Qed.

Lemma callSite_deref rt hp p e d :
  deref hp p = Some (e, d) →
  callSite rt p hp =
    Ok (storeMap hp (Data e) (if HasCaller e then resolvedFields rt d else d)).
Proof.
  intros Hp. unfold callSite, loadEntry.
  pose proof Hp as Hp'. apply deref_Some in Hp' as [He Hd]. rewrite He; simpl.
  destruct (HasCaller e).
  - by apply walkFrames_deref.
  - by rewrite storeMap_id.
Qed.

Lemma find_first {A} (f : A → bool) l1 x l2 :
  Forall (fun y => f y = false) l1 → f x = true →
  List.find f (l1 ++ x :: l2)%list = Some x.
Proof.
  induction 1 as [|y l1 Hy _ IH]; intros Hx; simpl.
  - by rewrite Hx.
  - rewrite Hy. by apply IH.
Qed.

Lemma find_none {A} (f : A → bool) l :
  Forall (fun y => f y = false) l → List.find f l = None.
Proof. induction 1 as [|y l Hy _ IH]; simpl; [done|]. by rewrite Hy. Qed.

(** (C6, amended) For an entry with a caller and a map that is not nil,
    the resolver looks at no more than the first three frames from depth 6.
    The first of them whose function name does not contain the text
    "github.com/sirupsen/logrus" gives the field "file", as path:line, and
    the field "func", the base of the function's name. When the window has
    frames and all of them have that text in their function name, the
    caller at depth 8 gives the two fields if that lookup succeeds. In
    every other case the map is left as it is. The resolver never fails. *)
Theorem C6_call_site_resolution :
  ∀ rt hp p e d,
    deref hp p = Some (e, d) →
    HasCaller e = true →
    let window := take 3 (Callers6 rt) in
    ∃ d',
      callSite rt p hp = Ok (storeMap hp (Data e) d') ∧
      deref (storeMap hp (Data e) d') p = Some (e, d') ∧
      (length window ≤ 3)%nat ∧
      (∀ l1 fr l2,
          window = (l1 ++ fr :: l2)%list →
          Forall (fun f => insideLogrus f = true) l1 →
          insideLogrus fr = false →
          d' = <["func" := VString (Base (Function fr))]>
                 (<["file" := VString (File fr +:+ ":" +:+ pretty (Line fr))]> d)) ∧
      (∀ fr,
          Forall (fun f => insideLogrus f = true) window →
          window ≠ [] →
          Caller8 rt = Some fr →
          d' = <["func" := VString (Base (Function fr))]>
                 (<["file" := VString (File fr +:+ ":" +:+ pretty (Line fr))]> d)) ∧
      (Forall (fun f => insideLogrus f = true) window →
       window = [] ∨ Caller8 rt = None →
       d' = d).
Proof.
  intros rt hp p e d Hp Hcaller window. exists (resolvedFields rt d).
  assert (∀ l, Forall (fun f => insideLogrus f = true) l →
               Forall (fun f => negb (insideLogrus f) = false) l) as Hneg.
  { intros l Hl. eapply Forall_impl; [exact Hl|]. by intros f ->. }
  split; [|split; [|split; [|split; [|split]]]].
  - rewrite (callSite_deref _ _ _ _ _ Hp). by rewrite Hcaller.
  - by eapply deref_storeMap_eq.
  - subst window. rewrite length_take. lia.
  - intros l1 fr l2 Hw Hl1 Hfr. unfold resolvedFields, resolveCallSite.
    fold window. rewrite Hw.
    rewrite (find_first (fun fr => negb (insideLogrus fr))); [done|by apply Hneg|].
    by rewrite Hfr.
  - intros fr Hall Hne H8. unfold resolvedFields, resolveCallSite. fold window.
    rewrite find_none by (by apply Hneg). rewrite H8. by destruct window.
  - intros Hall Hor. unfold resolvedFields, resolveCallSite. fold window.
    rewrite find_none by (by apply Hneg).
    destruct Hor as [-> | ->]; [done|]. by destruct window.
Qed.

(** (C6, counterexample) The frame taken is not always the first one that
    does not belong to logrus: a frame of the package
    github.com/sirupsen/logrusx does not belong to it, yet it is passed
    over, and the fields written are those of the frame after it. *)
Lemma C6_counterexample :
  HasCaller entry1 = true ∧
  take 3 (Callers6 rt_foreign) = [foreign_frame; main_frame] ∧
  belongsToLogrus foreign_frame = false ∧
  callSite rt_foreign 1%positive heap1
    = Ok (storeMap heap1 1%positive
            (<["func" := VString "cart.(*Cart).Add"]>
               (<["file" := VString "/src/cart.go:42"]> fields1))) ∧
  callSite rt_foreign 1%positive heap1
    ≠ Ok (storeMap heap1 1%positive
            (<["func" := VString "logrusx.Run"]>
               (<["file" := VString "/src/logrusx/run.go:7"]> fields1))).
Proof.
  assert (callSite rt_foreign 1%positive heap1
          = Ok (storeMap heap1 1%positive
                  (<["func" := VString "cart.(*Cart).Add"]>
                     (<["file" := VString "/src/cart.go:42"]> fields1)))) as Hsite
    by (vm_compute; reflexivity).
  split; [reflexivity|]. split; [reflexivity|]. split; [reflexivity|].
  split; [exact Hsite|]. rewrite Hsite. intros Heq.
  vm_compute in Heq. discriminate Heq.
Qed.

(** [path.Base] keeps what follows the last slash. *)
Lemma list_ascii_of_string_app s1 s2 :
  list_ascii_of_string (s1 +:+ s2)
  = (list_ascii_of_string s1 ++ list_ascii_of_string s2)%list.
Proof. induction s1 as [|c s1 IH]; simpl; [done|]. by rewrite IH. Qed.

Lemma untilSlash_app l r : slash ∉ l → untilSlash (l ++ slash :: r)%list = l.
Proof.
  induction l as [|c l IH]; intros Hl.
  - done.
  - apply not_elem_of_cons in Hl as [Hc Hl].
    cbn [app untilSlash]. rewrite decide_False by done. by rewrite IH.
Qed.

Lemma Base_strips_prefix dir name :
  name ≠ "" → slash ∉ list_ascii_of_string name →
  Base (dir +:+ "/" +:+ name) = name.
Proof.
  intros Hne Hns. unfold Base.
  rewrite decide_False by (destruct dir; simpl; discriminate).
  rewrite !list_ascii_of_string_app, !rev_app_distr. simpl.
  set (l := list_ascii_of_string name) in *.
  assert (slash ∉ rev l) as Hr.
  { intros Hin. apply Hns. by apply list_elem_of_In, in_rev, list_elem_of_In. }
  assert (l ≠ []) as Hl.
  { intros Heq. apply Hne. rewrite <- (string_of_list_ascii_of_string name).
    fold l. by rewrite Heq. }
  destruct (rev l) as [|c r] eqn:Hrev.
  { exfalso. apply Hl. rewrite <- (rev_involutive l), Hrev. done. }
  rewrite <- !app_assoc. simpl.
  rewrite (decide_False (P := c = slash)) by (intros ->; apply Hr; left).
  change (c :: r ++ "/"%char :: rev (list_ascii_of_string dir))%list
    with ((c :: r) ++ slash :: rev (list_ascii_of_string dir))%list.
  rewrite untilSlash_app by done.
  rewrite <- Hrev, rev_involutive. unfold l.
  rewrite string_of_list_ascii_of_string. by rewrite decide_False.
Qed.

(** ** Fire *)

(** [copyEntry] leaves every entry that was there as it was. *)
Lemma Hook_copyEntry_frame h hp p e d c hp' :
  deref hp p = Some (e, d) →
  Hook_copyEntry h p hp = Ok (c, hp') →
  (c ∉ dom (entries hp)) ∧
  (∃ e', deref hp' c = Some (e', d) ∧ Data e' ∉ dom (maps hp)) ∧
  (∀ x ex dx, deref hp x = Some (ex, dx) → deref hp' x = Some (ex, dx)).
Proof.
  intros Hp Hcopy. rewrite (Hook_copyEntry_deref h hp p e d Hp) in Hcopy.
  simpl in Hcopy. injection Hcopy as <- <-.
  set (m0 := newMap hp).
  set (m := newMap (mkHeap _ _)).
  assert (m0 ∉ dom (maps hp)) as Hm0 by apply newMap_fresh.
  assert (m ∉ dom (<[m0 := ∅]> (maps hp))) as Hm by apply newMap_fresh.
  assert (fresh (dom (entries hp)) ∉ dom (entries hp)) as Hc by apply is_fresh.
  assert (m ∉ dom (maps hp)) as Hm'.
  { intros Hin. apply Hm. rewrite dom_insert. by apply elem_of_union_r. }
  split; [done|]. split.
  - exists (mkEntry (Logger_ e) m (Time e) (Level_ e) None (Message e)).
    split; [|exact Hm']. apply deref_Some; simpl.
    by rewrite !lookup_insert_eq.
  - intros x ex dx [Hx Hdx]%deref_Some. apply deref_Some; simpl.
    assert (is_Some (entries hp !! x)) as Hin%elem_of_dom by eauto.
    assert (is_Some (maps hp !! Data ex)) as Hin'%elem_of_dom by eauto.
    rewrite !lookup_insert_ne by congruence. done.
Qed.

(** [Fire], spelled out on a valid entry: the resolver's write, the copy,
    the push. *)
Lemma Hook_Fire_deref h rt p w e d :
  deref (heap w) p = Some (e, d) →
  let d1 := if HasCaller e then resolvedFields rt d else d in
  ∃ c hp2 e',
    Hook_Fire h rt p w =
      bindR (Push (q h) (NewJob c))
            (fun q' => Ok (mkHook (opts h) q', set_heap w hp2, None)) ∧
    (c ∉ dom (entries (heap w))) ∧
    deref hp2 c = Some (e', d1) ∧
    (Data e' ∉ dom (maps (heap w))) ∧
    deref hp2 p = Some (e, d1) ∧
    (∀ x, valid (heap w) x → valid hp2 x).
Proof.
  intros Hp d1. set (hp1 := storeMap (heap w) (Data e) d1).
  assert (deref hp1 p = Some (e, d1)) as Hp1 by (by eapply deref_storeMap_eq).
  destruct (Hook_copyEntry h p hp1) as [[c hp2]| |msg] eqn:Hcopy;
    try (rewrite (Hook_copyEntry_deref h hp1 p e d1 Hp1) in Hcopy; discriminate).
  destruct (Hook_copyEntry_frame _ _ _ _ _ _ _ Hp1 Hcopy) as (Hc & (e' & Hdc & Hm) & Hframe).
  exists c, hp2, e'. split; [|split; [|split; [|split; [|split]]]]; try done.
  - unfold Hook_Fire. rewrite (callSite_deref _ _ _ _ _ Hp); simpl.
    fold d1 hp1. by rewrite Hcopy.
  - intros Hin. apply Hm. unfold hp1; simpl. rewrite dom_insert.
    by apply elem_of_union_r.
  - by apply Hframe.
  - intros x Hx. apply deref_Some in Hp as [_ Hd].
    apply (valid_storeMap _ _ _ d1 _ Hd) in Hx as [[ex dx] Hx].
    exists (ex, dx). by apply Hframe.
Qed.

Lemma Push_cases qu j :
  (Push qu j = Blocked ∧ running qu = true ∧
   capacity qu ≤ Z.of_nat (length (buffer qu))) ∨
  (Push qu j = Ok qu ∧ running qu = false) ∨
  (Push qu j = Ok (mkQueue (capacity qu) (workers qu) true (buffer qu ++ [j]) (inflight qu)) ∧
   running qu = true ∧ Z.of_nat (length (buffer qu)) < capacity qu).
Proof.
  unfold Push. destruct (running qu); [|by right; left].
  case_decide; [by right; right|left]. repeat split; lia.
Qed.



(** (C10) [Fire] writes into the map of the entry it is given, before it
    takes the copy. When the entry has a caller, the map of the original
    holds the resolved "file" and "func" once [Fire] has returned, and so
    does the copy's; when it has none, the map of the original is as it
    was. *)
Theorem C10_Fire_writes_into_original :
  ∀ h rt p w e d,
    deref (heap w) p = Some (e, d) →
    running (q h) = false ∨ Z.of_nat (length (buffer (q h))) < capacity (q h) →
    ∃ h' w' c e',
      Hook_Fire h rt p w = Ok (h', w', None) ∧
      (c ∉ dom (entries (heap w))) ∧
      (running (q h) = true → buffer (q h') = (buffer (q h) ++ [NewJob c])%list) ∧
      (HasCaller e = true →
       deref (heap w') p = Some (e, resolvedFields rt d) ∧
       deref (heap w') c = Some (e', resolvedFields rt d) ∧
       ∀ fr,
         resolveCallSite (take 3 (Callers6 rt)) (Caller8 rt) = Some fr →
         resolvedFields rt d !! "file"
           = Some (VString (File fr +:+ ":" +:+ pretty (Line fr))) ∧
         resolvedFields rt d !! "func" = Some (VString (Base (Function fr)))) ∧
      (HasCaller e = false →
       deref (heap w') p = Some (e, d) ∧ deref (heap w') c = Some (e', d)).
Proof.
  intros h rt p w e d Hp Hroom.
  destruct (Hook_Fire_deref h rt p w e d Hp) as (c & hp2 & e' & Hfire & Hc & Hdc & _ & Hdp & _).
  destruct (Push_cases (q h) (NewJob c)) as [(Hpush & Hr & Hfull)|[(Hpush & Hr)|(Hpush & Hr & _)]].
  { destruct Hroom; [congruence|lia]. }
  all: rewrite Hpush in Hfire; simpl in Hfire;
    eexists _, _, c, e'; split; [exact Hfire|]; simpl;
    split; [done|]; split; [try done; congruence|]; split.
  all: intros Hcaller; rewrite Hcaller in *; (split; [done|]); try done.
  all: split; [done|]; intros fr Hres; unfold resolvedFields, frameFields.
  all: rewrite Hres; split; [|apply lookup_insert_eq].
  all: rewrite lookup_insert_ne by done; apply lookup_insert_eq.
Qed.

(** ** The pipeline *)



(** The pipeline spelled out, on a valid entry and with a backend. *)
Lemma Hook_exec_deref h b p w e d :
  deref (heap w) p = Some (e, d) →
  exec (opts h) = Some b →
  let hp1 := storeMap (heap w) (Data e) (d ∪ default ∅ (extra (opts h))) in
  let fr := match filter (opts h) with
            | Some f => f p hp1
            | None => (Some p, hp1)
            end in
  let er := Exec b fr.1 fr.2 in
  Hook_exec h p w =
    Ok (mkWorld fr.2
          (execs w ++ [mkExecCall p fr.1 (fr.1 ≫= deref fr.2) er])
          (written w ++ diagnostics (out (opts h)) er)
          (logged w)).
Proof.
  intros Hp Hb hp1 fr er. unfold Hook_exec.
  assert (match extra (opts h) with
          | Some x => mergeExtra (map_to_list x) p (heap w)
          | None => Ok (heap w)
          end = Ok hp1) as ->.
  { unfold hp1. destruct (extra (opts h)) as [x|]; simpl.
    - rewrite (mergeExtra_deref _ _ _ _ _ Hp). by rewrite list_to_map_to_list.
    - rewrite (right_id_L ∅ (∪)). rewrite storeMap_id; [done|].
      by apply deref_Some in Hp as [_ ?]. }
  simpl. fold fr. destruct fr as [fe hp2] eqn:Hfr. rewrite Hb; simpl.
  subst er; simpl. unfold diagnostics.
  destruct (Exec b fe hp2) as [msg|], (out (opts h)) as [o|]; simpl;
    by rewrite ?app_nil_r.
Qed.

Lemma mergeExtra_outcome kvs : ∀ p hp,
  (∃ hp', mergeExtra kvs p hp = Ok hp') ∨ mergeExtra kvs p hp = Panic nil_dereference.
Proof.
  induction kvs as [|[k v] rest IH]; intros p hp; simpl; [eauto|].
  unfold getField, setField, loadEntry, loadMap.
  destruct (entries hp !! p) as [e|]; simpl; [|by right].
  destruct (maps hp !! Data e) as [d|]; simpl; [|by right].
  destruct (d !! k); simpl; apply IH.
Qed.

(** Without a backend the call of [Exec] is a call on the nil interface. *)
Lemma Hook_exec_no_backend h p w :
  exec (opts h) = None → Hook_exec h p w = Panic nil_dereference.
Proof.
  intros Hb. unfold Hook_exec.
  assert ((∃ hp', match extra (opts h) with
                  | Some x => mergeExtra (map_to_list x) p (heap w)
                  | None => Ok (heap w)
                  end = Ok hp') ∨
          match extra (opts h) with
          | Some x => mergeExtra (map_to_list x) p (heap w)
          | None => Ok (heap w)
          end = Panic nil_dereference) as [[hp' ->]| ->]; [| |done].
  { destruct (extra (opts h)); [apply mergeExtra_outcome|eauto]. }
  simpl. destruct (match filter (opts h) with
                   | Some f => f p hp'
                   | None => (Some p, hp')
                   end) as [fe hp2].
  by rewrite Hb.
Qed.

(** (C7) With a filter that returns its input unchanged, the pipeline does
    what it does with no filter at all; the backend is handed the entry it
    was run on, whose map then is the entry's map with the extras merged
    in. *)
Theorem C7_identity_filter :
  ∀ h (f : FilterHandle) p w,
    filter (opts h) = Some f →
    (∀ x hp, f x hp = (Some x, hp)) →
    Hook_exec h p w = Hook_exec (mkHook (SetFilter None (opts h)) (q h)) p w ∧
    (∀ b e d,
        exec (opts h) = Some b →
        deref (heap w) p = Some (e, d) →
        ∃ w',
          Hook_exec h p w = Ok w' ∧
          execs w' = (execs w ++
            [mkExecCall p (Some p) (Some (e, d ∪ default ∅ (extra (opts h))))
                        (Exec b (Some p) (heap w'))])%list).
Proof.
  intros h f p w Hf Hid. split.
  - unfold Hook_exec; simpl. rewrite Hf.
    destruct (match extra (opts h) with
              | Some x => mergeExtra (map_to_list x) p (heap w)
              | None => Ok (heap w)
              end) as [hp1| |msg]; simpl; [|done|done].
    by rewrite Hid.
  - intros b e d Hb Hp. rewrite (Hook_exec_deref h b p w e d Hp Hb).
    rewrite Hf, Hid; simpl. eexists; split; [done|]; simpl.
    by erewrite deref_storeMap_eq.
Qed.

(** (C1) A hook made without a backend is made all the same, with one line
    logged at level info, and [Fire] on it returns nil. The job then
    panics in the worker that runs it: the pipeline calls [Exec] on the nil
    interface, and the process ends with no call of a backend recorded. *)
Theorem C1_no_backend_pipeline_panics :
  (∀ w0,
      exec (opts (New [] w0).1) = None ∧
      logged (New [] w0).2 = (logged w0 ++ ["Unknown Execer interface implementation"])%list ∧
      ∀ p w, Hook_exec (New [] w0).1 p w = Panic nil_dereference) ∧
  ∃ evs w,
    run [LFire 1%positive rt1; LTake; LFinish 0] (Live (New [] world1).1 (New [] world1).2)
      = Some (evs ++ [Crash nil_dereference], Crashed nil_dereference w)%list ∧
    execs w = [].
Proof.
  split.
  - intros w0. split; [done|]. split; [done|].
    intros p w. by apply Hook_exec_no_backend.
  - eexists [_; _], _. split; [vm_compute; reflexivity|]. reflexivity.
Qed.

(** ** Schedules *)

Lemma Hook_exec_Ok_inv h p w w' :
  Hook_exec h p w = Ok w' →
  ∃ b call,
    exec (opts h) = Some b ∧
    execs w' = (execs w ++ [call])%list ∧
    job call = p ∧
    err call = Exec b (arg call) (heap w') ∧
    written w' = (written w ++ diagnostics (out (opts h)) (err call))%list ∧
    logged w' = logged w.
Proof.
  unfold Hook_exec.
  destruct (match extra (opts h) with
            | Some x => mergeExtra (map_to_list x) p (heap w)
            | None => Ok (heap w)
            end) as [hp1| |msg]; simpl; [|done|done].
  destruct (match filter (opts h) with
            | Some f => f p hp1
            | None => (Some p, hp1)
            end) as [fe hp2].
  destruct (exec (opts h)) as [b|]; simpl; [|done].
  unfold diagnostics.
  destruct (Exec b fe hp2) as [m|] eqn:He, (out (opts h)) as [o|];
    intros [= <-]; simpl; eexists b, (mkExecCall p fe _ _); simpl;
    (split; [reflexivity|]); (split; [reflexivity|]); simpl;
    rewrite ?app_nil_r, ?He; done.
Qed.

Lemma Hook_Fire_Ok_inv h rt p w h' w' r :
  Hook_Fire h rt p w = Ok (h', w', r) →
  ∃ c hp,
    Push (q h) (NewJob c) = Ok (q h') ∧ opts h' = opts h ∧
    w' = set_heap w hp ∧ r = None.
Proof.
  unfold Hook_Fire. intros (hp1 & _ & H1)%bindR_Ok.
  apply bindR_Ok in H1 as ([c hp2] & _ & H2).
  apply bindR_Ok in H2 as (q' & Hpush & [= <- <- <-]).
  by exists c, hp2.
Qed.

Lemma Push_Ok_inv qu j q' :
  Push qu j = Ok q' →
  capacity q' = capacity qu ∧ workers q' = workers qu ∧
  running q' = running qu ∧ inflight q' = inflight qu ∧
  ((running qu = false ∧ buffer q' = buffer qu) ∨
   (running qu = true ∧ buffer q' = (buffer qu ++ [j])%list)).
Proof.
  destruct (Push_cases qu j) as [(-> & _)|[(-> & Hr)|(-> & Hr & _)]];
    [done| |]; intros [= <-]; simpl; repeat split; auto.
Qed.

Lemma step_accounts l h w ev h' w' :
  step l (Live h w) = Some (ev, Live h' w') → accounts h w [ev] h' w'.
Proof.
  destruct l as [p rt| |i]; simpl.
  - case_decide; [|done].
    destruct (Hook_Fire h rt p w) as [[[h1 w1] r]| |msg] eqn:Hfire; [|done|done].
    intros [= <- <- <-].
    apply Hook_Fire_Ok_inv in Hfire as (c & hp & Hpush & Ho & -> & _).
    apply Push_Ok_inv in Hpush as (Hc & Hw & Hr & Hi & Hb).
    unfold submitted, finished; simpl. rewrite ?app_nil_r.
    split; simpl; try done.
    + intros Hcl. destruct Hb as [[_ ->]|[? _]]; [|congruence].
      by rewrite drop_all.
    + rewrite Hi. destruct Hb as [[_ ->]|[_ ->]].
      * by rewrite drop_all, !app_nil_r.
      * rewrite drop_app_length, !app_nil_r, <- app_assoc. simpl.
        apply Permutation_middle.
    + exists []. simpl. by rewrite !app_nil_r.
  - destruct (buffer (q h)) as [|j rest] eqn:Hbuf; [done|].
    case_decide; [|done]. intros [= <- <- <-].
    unfold submitted, finished; simpl.
    split; simpl; try done.
    + rewrite app_nil_r, Hbuf. rewrite (Permutation_app_comm (inflight (q h)) [j]).
      apply Permutation_middle.
    + exists []. simpl. by rewrite !app_nil_r.
  - destruct (inflight (q h) !! i) as [j|] eqn:Hj; [|done].
    destruct (Hook_exec h (payload j) w) as [w1| |msg] eqn:Hexec; [|done|done].
    intros [= <- <- <-].
    apply Hook_exec_Ok_inv in Hexec as (b & call & Hb & He & Hjob & Herr & Hwr & Hlog).
    unfold submitted, finished; simpl.
    split; simpl; try done.
    + apply Permutation_app_head.
      etrans; [apply (delete_Permutation _ _ _ Hj)|apply Permutation_cons_append].
    + exists [call]. simpl. rewrite app_nil_r, Hjob.
      repeat split; try done; [by destruct j|].
      constructor; [|done]. by exists b, (heap w1).
Qed.

Lemma accounts_refl h w : accounts h w [] h w.
Proof.
  split; try done.
  - unfold submitted, finished; simpl. by rewrite app_nil_r.
  - exists []. simpl. by rewrite !app_nil_r.
Qed.

Lemma submitted_app evs1 evs2 :
  submitted (evs1 ++ evs2) = (submitted evs1 ++ submitted evs2)%list.
Proof. unfold submitted. apply bind_app. Qed.

Lemma finished_app evs1 evs2 :
  finished (evs1 ++ evs2) = (finished evs1 ++ finished evs2)%list.
Proof. unfold finished. apply bind_app. Qed.

Lemma accounts_trans h w evs1 h1 w1 evs2 h2 w2 :
  accounts h w evs1 h1 w1 → accounts h1 w1 evs2 h2 w2 →
  accounts h w (evs1 ++ evs2) h2 w2.
Proof.
  intros [Ho1 Hc1 Hw1 Hr1 Hcl1 Hj1 (calls1 & He1 & Hf1 & Ha1 & Hwr1) Hl1]
         [Ho2 Hc2 Hw2 Hr2 Hcl2 Hj2 (calls2 & He2 & Hf2 & Ha2 & Hwr2) Hl2].
  split; try congruence.
  - intros Hcl. rewrite submitted_app, Hcl1, Hcl2; [done|congruence|done].
  - rewrite submitted_app, finished_app.
    rewrite (Permutation_app_comm (submitted evs1)), <- app_assoc, Hj1.
    rewrite !app_assoc. rewrite <- (app_assoc (submitted evs2)), Hj2.
    rewrite <- !app_assoc. do 2 apply Permutation_app_head.
    apply Permutation_app_comm.
  - exists (calls1 ++ calls2)%list. rewrite He2, He1, Hwr2, Hwr1, Ho1.
    rewrite !fmap_app, Hf1, Hf2, finished_app, bind_app, <- !app_assoc.
    repeat split; try done. apply Forall_app. split; [done|]. by rewrite <- Ho1.
Qed.

Lemma run_Crashed sched msg w evs σ :
  run sched (Crashed msg w) = Some (evs, σ) → σ = Crashed msg w ∧ evs = [].
Proof. destruct sched; simpl; [|done]. by intros [= <- <-]. Qed.

Lemma run_cons_inv l sched h w evs h' w' :
  run (l :: sched) (Live h w) = Some (evs, Live h' w') →
  ∃ ev h1 w1 evs',
    step l (Live h w) = Some (ev, Live h1 w1) ∧
    run sched (Live h1 w1) = Some (evs', Live h' w') ∧
    evs = ev :: evs'.
Proof.
  cbn [run]. destruct (step l (Live h w)) as [[ev [h1 w1|msg w1]]|] eqn:Hstep; [| |done].
  - destruct (run sched (Live h1 w1)) as [[evs' σ]|] eqn:Hrun; [|done].
    intros [= <- ->]. by exists ev, h1, w1, evs'.
  - destruct (run sched (Crashed msg w1)) as [[evs' σ]|] eqn:Hrun; [|done].
    apply run_Crashed in Hrun as [-> _]. done.
Qed.

Lemma run_accounts sched : ∀ h w evs h' w',
  run sched (Live h w) = Some (evs, Live h' w') → accounts h w evs h' w'.
Proof.
  induction sched as [|l sched IH]; intros h w evs h' w' Hrun.
  - injection Hrun as <- <- <-. apply accounts_refl.
  - apply run_cons_inv in Hrun as (ev & h1 & w1 & evs' & Hstep & Hrun & ->).
    apply (accounts_trans _ _ [ev] h1 w1 evs'); [by eapply step_accounts|by apply IH].
Qed.

Lemma run_app s1 : ∀ s2 σ evs1 σ1 evs2 σ2,
  run s1 σ = Some (evs1, σ1) → run s2 σ1 = Some (evs2, σ2) →
  run (s1 ++ s2) σ = Some ((evs1 ++ evs2)%list, σ2).
Proof.
  induction s1 as [|l s1 IH]; intros s2 σ evs1 σ1 evs2 σ2 H1 H2.
  - by injection H1 as <- <-.
  - cbn [run app] in *. destruct (step l σ) as [[ev σ']|]; [|done].
    destruct (run s1 σ') as [[evs' σ'']|] eqn:Hrun; [|done].
    injection H1 as <- <-. by rewrite (IH _ _ _ _ _ _ Hrun H2).
Qed.

(** ** Jobs stay runnable *)

Lemma Hook_exec_valid h b p w :
  filter_safe (opts h) → exec (opts h) = Some b → valid (heap w) p →
  ∃ w', Hook_exec h p w = Ok w' ∧ ∀ x, valid (heap w) x → valid (heap w') x.
Proof.
  intros Hsafe Hb [[e d] Hp]. rewrite (Hook_exec_deref h b p w e d Hp Hb).
  eexists; split; [done|]. simpl. intros x Hx.
  apply deref_Some in Hp as [_ Hd].
  apply (valid_storeMap _ _ _ (d ∪ default ∅ (extra (opts h))) _ Hd) in Hx.
  destruct (filter (opts h)) as [f|] eqn:Hf; [|done].
  by apply (Hsafe f Hf).
Qed.

Lemma step_queued_valid l h w ev h' w' :
  filter_safe (opts h) → queued_valid h w →
  step l (Live h w) = Some (ev, Live h' w') → queued_valid h' w'.
Proof.
  intros Hsafe Hq. unfold queued_valid in *. destruct l as [p rt| |i]; simpl.
  - case_decide as Hv; [|done]. destruct Hv as [[e d] Hp].
    destruct (Hook_Fire_deref h rt p w e d Hp) as (c & hp2 & e' & -> & _ & Hdc & _ & _ & Hval).
    destruct (Push (q h) (NewJob c)) as [q'| |msg] eqn:Hpush; simpl; [|done|done].
    intros [= <- <- <-]. simpl.
    apply Push_Ok_inv in Hpush as (_ & _ & _ & -> & Hb).
    assert (Forall (fun j => valid hp2 (payload j)) (buffer (q h) ++ inflight (q h))) as Hq'.
    { eapply Forall_impl; [exact Hq|]. intros j. apply Hval. }
    destruct Hb as [[_ ->]|[_ ->]]; [done|].
    apply Forall_app in Hq' as [? ?]. rewrite !Forall_app. repeat split; try done.
    constructor; [|done]. by exists (e', if HasCaller e then resolvedFields rt d else d).
  - destruct (buffer (q h)) as [|j rest] eqn:Hbuf; [done|].
    case_decide; [|done]. intros [= <- <- <-]. simpl.
    apply Forall_app in Hq as [[Hj Hrest]%Forall_cons Hin].
    rewrite !Forall_app. repeat split; try done. by constructor.
  - destruct (inflight (q h) !! i) as [j|] eqn:Hj; [|done].
    destruct (Hook_exec h (payload j) w) as [w1| |msg] eqn:Hexec; [|done|done].
    intros [= <- <- <-]. simpl.
    pose proof Hexec as (b & _ & Hb & _)%Hook_exec_Ok_inv.
    apply Forall_app in Hq as [Hbuf Hin].
    assert (valid (heap w) (payload j)) as Hvj.
    { rewrite Forall_lookup in Hin. by apply (Hin i). }
    destruct (Hook_exec_valid h b (payload j) w Hsafe Hb Hvj) as (w1' & Hexec' & Hval).
    rewrite Hexec in Hexec'. injection Hexec' as <-.
    rewrite Forall_app. split.
    + eapply Forall_impl; [exact Hbuf|]. intros ?. apply Hval.
    + apply (Forall_impl (fun j => valid (heap w) (payload j))).
      * apply Forall_forall. intros j' Hin'. rewrite Forall_forall in Hin.
        apply Hin. rewrite (delete_Permutation _ _ _ Hj). by right.
      * intros ?. apply Hval.
Qed.

Lemma run_queued_valid sched : ∀ h w evs h' w',
  filter_safe (opts h) → queued_valid h w →
  run sched (Live h w) = Some (evs, Live h' w') → queued_valid h' w'.
Proof.
  induction sched as [|l sched IH]; intros h w evs h' w' Hsafe Hq Hrun.
  - by injection Hrun as <- <- <-.
  - apply run_cons_inv in Hrun as (ev & h1 & w1 & evs' & Hstep & Hrun & ->).
    apply (IH h1 w1 evs'); [|by eapply step_queued_valid|done].
    by rewrite (acc_opts _ _ _ _ _ (step_accounts _ _ _ _ _ _ Hstep)).
Qed.

(** With a backend, a safe filter and runnable jobs, no step ends the
    process. *)
Lemma step_no_crash l h b w ev msg w' :
  filter_safe (opts h) → exec (opts h) = Some b → queued_valid h w →
  step l (Live h w) ≠ Some (ev, Crashed msg w').
Proof.
  intros Hsafe Hb Hq. destruct l as [p rt| |i]; simpl.
  - case_decide as Hv; [|done]. destruct Hv as [[e d] Hp].
    destruct (Hook_Fire_deref h rt p w e d Hp) as (c & hp2 & e' & -> & _).
    by destruct (Push_cases (q h) (NewJob c)) as [(-> & _)|[(-> & _)|(-> & _)]].
  - destruct (buffer (q h)); [done|]. by case_decide.
  - destruct (inflight (q h) !! i) as [j|] eqn:Hj; [|done].
    assert (valid (heap w) (payload j)) as Hvj.
    { apply Forall_app in Hq as [_ Hin]. rewrite Forall_lookup in Hin.
      by apply (Hin i). }
    by destruct (Hook_exec_valid h b (payload j) w Hsafe Hb Hvj) as (w1 & -> & _).
Qed.

Lemma run_no_crash sched : ∀ h b w evs msg w',
  filter_safe (opts h) → exec (opts h) = Some b → queued_valid h w →
  run sched (Live h w) ≠ Some (evs, Crashed msg w').
Proof.
  induction sched as [|l sched IH]; intros h b w evs msg w' Hsafe Hb Hq; [done|].
  cbn [run]. destruct (step l (Live h w)) as [[ev [h1 w1|msg1 w1]]|] eqn:Hstep; [| |done].
  - pose proof (step_accounts _ _ _ _ _ _ Hstep) as [Ho _ _ _ _ _ _ _].
    pose proof (step_queued_valid _ _ _ _ _ _ Hsafe Hq Hstep) as Hq1.
    rewrite <- Ho in Hsafe, Hb.
    destruct (run sched (Live h1 w1)) as [[evs1 σ]|] eqn:Hrun; [|done].
    intros [= <- ->]. by eapply (IH h1 b w1).
  - by apply (step_no_crash l h b w ev msg1 w1) in Hstep.
Qed.

(** ** Draining the queue *)

Section Drain.
Variables (b : ExecCloser) (o : options) (cap wk : Z) (r : bool).
Hypothesis Hsafe : filter_safe o.
Hypothesis Hb : exec o = Some b.

Let hook (buf infl : list Job) : Hook := mkHook o (mkQueue cap wk r buf infl).

(** The workers finish the jobs they hold. *)
Lemma run_finish_all buf : ∀ infl w,
  Forall (fun j => valid (heap w) (payload j)) (buf ++ infl) →
  ∃ evs w',
    run (replicate (length infl) (LFinish 0)) (Live (hook buf infl) w)
      = Some (evs, Live (hook buf []) w') ∧
    ∀ x, valid (heap w) x → valid (heap w') x.
Proof.
  induction infl as [|j infl IH]; intros w Hq.
  - by exists [], w.
  - apply Forall_app in Hq as [Hbuf [Hj Hin]%Forall_cons].
    destruct (Hook_exec_valid (hook buf (j :: infl)) b (payload j) w Hsafe Hb Hj)
      as (w1 & Hexec & Hval).
    destruct (IH w1) as (evs & w' & Hrun & Hval').
    { apply Forall_app. split; (eapply Forall_impl; [eassumption|]);
        intros ?; apply Hval. }
    exists (Finished j :: evs), w'. split; [|by auto].
    cbn [length replicate run step]. simpl. rewrite Hexec.
    unfold set_queue; simpl. unfold hook in Hrun. by rewrite Hrun.
Qed.

(** With a worker at hand, the buffered jobs are taken and finished one
    after the other. *)
Lemma run_take_all : ∀ buf w,
  0 < wk →
  Forall (fun j => valid (heap w) (payload j)) buf →
  ∃ evs w',
    run (concat (replicate (length buf) [LTake; LFinish 0])) (Live (hook buf []) w)
      = Some (evs, Live (hook [] []) w').
Proof.
  induction buf as [|j buf IH]; intros w Hwk Hq.
  - by exists [], w.
  - apply Forall_cons in Hq as [Hj Hbuf].
    destruct (Hook_exec_valid (hook buf [j]) b (payload j) w Hsafe Hb Hj)
      as (w1 & Hexec & Hval).
    destruct (IH w1 Hwk) as (evs & w' & Hrun).
    { eapply Forall_impl; [eassumption|]. intros ?; apply Hval. }
    exists (Taken j :: Finished j :: evs), w'.
    cbn [length replicate concat app run step]. simpl.
    rewrite decide_True by done. unfold set_queue; simpl.
    unfold hook in Hexec. rewrite Hexec. unfold set_queue; simpl.
    unfold hook in Hrun. by rewrite Hrun.
Qed.
End Drain.

Lemma Terminate_drain h b w :
  filter_safe (opts h) → exec (opts h) = Some b → 0 < workers (q h) →
  queued_valid h w →
  ∃ evs h' w', Terminate (drain h) h w = Ok (evs, h', w').
Proof.
  intros Hsafe Hb Hwk Hq. destruct h as [o [cap wk r buf infl]]; simpl in *.
  unfold queued_valid in Hq; simpl in Hq.
  destruct (run_finish_all b o cap wk false Hsafe Hb buf infl w Hq)
    as (evs1 & w1 & Hrun1 & Hval).
  destruct (run_take_all b o cap wk false Hsafe Hb buf w1 Hwk) as (evs2 & w2 & Hrun2).
  { apply Forall_app in Hq as [Hbuf _]. eapply Forall_impl; [exact Hbuf|].
    intros ?; apply Hval. }
  unfold Terminate, drain; simpl.
  rewrite (run_app _ _ _ _ _ _ _ Hrun1 Hrun2). simpl. eauto.
Qed.

Lemma Terminate_no_panic sched h b w msg :
  filter_safe (opts h) → exec (opts h) = Some b → queued_valid h w →
  Terminate sched h w ≠ Panic msg.
Proof.
  intros Hsafe Hb Hq. unfold Terminate.
  destruct (run sched _) as [[evs [h' w'|msg' w']]|] eqn:Hrun; [by case_decide| |done].
  by apply (run_no_crash sched _ b) in Hrun.
Qed.

(** What [New] returns. *)
Lemma New_queue opt w :
  q (New opt w).1 =
    mkQueue (maxQueues (opts (New opt w).1)) (maxWorkers (opts (New opt w).1)) true [] [].
Proof. done. Qed.

Lemma New_world opt w :
  heap (New opt w).2 = heap w ∧ execs (New opt w).2 = execs w ∧
  written (New opt w).2 = written w.
Proof. unfold New; simpl. by destruct (exec _). Qed.

(** From making the hook to the return of [Flush]. *)
Lemma New_run_Flush opt w_init sched evs h w sched' evs' h' w' :
  run sched (Live (New opt w_init).1 (New opt w_init).2) = Some (evs, Live h w) →
  Hook_Flush sched' h w = Ok (evs', h', w') →
  buffer (q h') = [] ∧ inflight (q h') = [] ∧ submitted evs' = [] ∧
  ∃ calls,
    execs w' = (execs w_init ++ calls)%list ∧
    NewJob <$> (job <$> calls) ≡ₚ submitted evs ∧
    Forall (fun c => ∃ b hp, exec (opts (New opt w_init).1) = Some b ∧
                             err c = Exec b (arg c) hp) calls ∧
    written w' = (written w_init ++
      (calls ≫= fun c => diagnostics (out (opts (New opt w_init).1)) (err c)))%list.
Proof.
  intros Hrun Hflush.
  apply run_accounts in Hrun as [Ho1 _ _ _ _ Hj1 (calls1 & He1 & Hf1 & Ha1 & Hwr1) _].
  unfold Hook_Flush, Terminate in Hflush.
  destruct (run sched' _) as [[evs2 [h2 w2|msg w2]]|] eqn:Hrun2; [|done|done].
  case_decide as Hidle; [|done]. injection Hflush as <- <- <-.
  destruct Hidle as [Hbuf Hin].
  apply run_accounts in Hrun2 as [Ho2 _ _ _ Hcl2 Hj2 (calls2 & He2 & Hf2 & Ha2 & Hwr2) _].
  specialize (Hcl2 eq_refl). rewrite Hbuf, Hin, Hcl2 in Hj2. simpl in Hj2, Ho2.
  destruct (New_world opt w_init) as (_ & Hex & Hwr).
  repeat split; try done.
  exists (calls1 ++ calls2)%list. rewrite He2, He1, Hwr2, Hwr1, Hex, Hwr, Ho1.
  rewrite bind_app, <- !app_assoc, !fmap_app, Hf1, Hf2.
  repeat split; try done.
  - rewrite <- Hj2. simpl in Hj1. rewrite app_nil_r in Hj1. rewrite Hj1.
    rewrite (app_assoc (buffer (q h))). apply Permutation_app_comm.
  - apply Forall_app. split; [done|]. by rewrite <- Ho1.
Qed.


(** ** Every fired entry reaches the backend *)

(** What a call of [Fire] that returns has done to the heap. *)
Lemma Hook_Fire_effects h rt p w e d h' w' r :
  deref (heap w) p = Some (e, d) →
  Hook_Fire h rt p w = Ok (h', w', r) →
  let d1 := if HasCaller e then resolvedFields rt d else d in
  ∃ c m,
    Push (q h) (NewJob c) = Ok (q h') ∧
    (c ∉ dom (entries (heap w))) ∧
    entries (heap w')
      = <[c := mkEntry (Logger_ e) m (Time e) (Level_ e) None (Message e)]>
          (entries (heap w)) ∧
    (m ∉ dom (maps (heap w))) ∧
    (∀ x ex, entries (heap w) !! x = Some ex → Data ex ≠ m) ∧
    maps (heap w') !! m = Some d1 ∧
    (∀ r0, r0 ∈ dom (maps (heap w)) →
           maps (heap w') !! r0
             = if decide (r0 = Data e) then Some d1 else maps (heap w) !! r0).
Proof.
  intros Hp Hfire d1. unfold Hook_Fire in Hfire.
  rewrite (callSite_deref _ _ _ _ _ Hp) in Hfire. simpl in Hfire. fold d1 in Hfire.
  set (hp1 := storeMap (heap w) (Data e) d1) in *.
  assert (deref hp1 p = Some (e, d1)) as Hp1 by (by eapply deref_storeMap_eq).
  rewrite (Hook_copyEntry_deref h hp1 p e d1 Hp1) in Hfire. simpl in Hfire.
  set (m0 := newMap hp1) in *. set (c := fresh (dom (entries (heap w)))) in *.
  set (m := newMap (mkHeap _ _)) in *.
  destruct (Push (q h) (NewJob c)) as [q'| |msg] eqn:Hpush; [|done|done].
  injection Hfire as <- <- <-. simpl.
  assert (m0 ∉ dom (maps hp1)) as Hm0 by apply newMap_fresh.
  assert (m ∉ dom (<[m0 := ∅]> (maps hp1))) as Hm by apply newMap_fresh.
  assert (∀ r0, r0 ∈ dom (maps (heap w)) → r0 ∈ dom (maps hp1)) as Hdom.
  { intros r0 Hr0. unfold hp1; simpl. rewrite dom_insert. by apply elem_of_union_r. }
  assert (∀ r0, r0 ∈ dom (maps hp1) → r0 ≠ m ∧ r0 ≠ m0) as Hold.
  { intros r0 Hr0. split; intros ->; [|done].
    apply Hm. rewrite dom_insert. by apply elem_of_union_r. }
  exists c, m. split; [done|]. split; [apply is_fresh|]. split; [done|].
  split; [intros Hin; by destruct (Hold m (Hdom m Hin))|]. split; [|split].
  - intros x ex Hx. destruct (decide (x = c)) as [->|Hxc].
    + exfalso. apply (is_fresh (dom (entries (heap w)))). fold c.
      by apply elem_of_dom_2 in Hx.
    + apply (newMap_unheld (mkHeap (<[c := mkEntry (Logger_ e) m0 0 PanicLevel None ""]>
                                      (entries hp1)) (<[m0 := ∅]> (maps hp1))) x ex).
      simpl. by rewrite lookup_insert_ne.
  - apply lookup_insert_eq.
  - intros r0 Hr0. destruct (Hold r0 (Hdom r0 Hr0)) as [? ?].
    rewrite !lookup_insert_ne by done.
    unfold hp1; simpl. rewrite lookup_insert. by repeat case_decide.
Qed.

Lemma HasCaller_no_caller e : Caller e = None → HasCaller e = false.
Proof.
  intros Hc. unfold HasCaller. rewrite Hc. destruct (Logger_ e); [|done].
  apply andb_false_r.
Qed.

Lemma snapshot_ok_valid w j v : snapshot_ok w j v → valid (heap w) (payload j).
Proof. intros (e' & d & Hd & _). by exists (e', d). Qed.

(** A call of [Fire] leaves the copies of the queued jobs as they are. *)
Lemma snapshot_ok_Fire h rt p w e d h' w' r j v :
  deref (heap w) p = Some (e, d) →
  Hook_Fire h rt p w = Ok (h', w', r) →
  snapshot_ok w j v → snapshot_ok w' j v.
Proof.
  intros Hp Hfire (e0 & d0 & Hj & Hv & Hcaller & Hown).
  destruct (Hook_Fire_effects _ _ _ _ _ _ _ _ _ Hp Hfire)
    as (c & m & _ & Hc & Hentries & Hm & Hunheld & _ & Hmaps).
  pose proof Hp as [He Hd]%deref_Some. pose proof Hj as [He0 Hd0]%deref_Some.
  assert (payload j ≠ c) as Hjc.
  { intros Heq. apply Hc. rewrite <- Heq. by apply elem_of_dom_2 in He0. }
  exists e0, d0. split; [|split; [done|split; [done|]]].
  - apply deref_Some. rewrite Hentries, lookup_insert_ne by done. split; [done|].
    rewrite Hmaps by (by apply elem_of_dom_2 in Hd0).
    case_decide as Heq; [|done].
    assert (p = payload j) as -> by (apply (Hown p e He); by rewrite Heq).
    assert (e = e0) as -> by congruence.
    rewrite HasCaller_no_caller by done. congruence.
  - intros x ex. rewrite Hentries. destruct (decide (c = x)) as [<-|Hne].
    + rewrite lookup_insert_eq. intros [= <-]. simpl. intros ->.
      exfalso. apply Hm. by apply elem_of_dom_2 in Hd0.
    + rewrite lookup_insert_ne by done. apply Hown.
Qed.

(** The copy a call of [Fire] has made, and the entry it was made of. *)
Lemma snapshot_ok_new h rt p w e d h' w' r :
  deref (heap w) p = Some (e, d) →
  Hook_Fire h rt p w = Ok (h', w', r) →
  ∃ c v,
    Push (q h) (NewJob c) = Ok (q h') ∧
    (c ∉ dom (entries (heap w))) ∧
    view <$> deref (heap w') p = Some v ∧
    snapshot_ok w' (NewJob c) v.
Proof.
  intros Hp Hfire.
  destruct (Hook_Fire_effects _ _ _ _ _ _ _ _ _ Hp Hfire)
    as (c & m & Hpush & Hc & Hentries & Hm & Hunheld & Hnew & Hmaps).
  pose proof Hp as [He Hd]%deref_Some.
  set (d1 := if HasCaller e then resolvedFields rt d else d) in *.
  assert (p ≠ c) as Hpc.
  { intros Heq. apply Hc. rewrite <- Heq. by apply elem_of_dom_2 in He. }
  exists c, (view (e, d1)). split; [done|]. split; [done|]. split.
  - assert (deref (heap w') p = Some (e, d1)) as ->; [|done].
    apply deref_Some. rewrite Hentries, lookup_insert_ne by done. split; [done|].
    rewrite Hmaps by (by apply elem_of_dom_2 in Hd). by rewrite decide_True.
  - eexists _, d1. split; [|split; [|split]].
    + apply deref_Some. rewrite Hentries, lookup_insert_eq. split; [done|]. exact Hnew.
    + done.
    + done.
    + intros x ex. rewrite Hentries. destruct (decide (c = x)) as [<-|Hne]; [done|].
      rewrite lookup_insert_ne by done. simpl. intros Hx Heq.
      by destruct (Hunheld x ex Hx).
Qed.

Section Pending.
Variables (b : ExecCloser) (o : options).
Hypothesis Hb : exec o = Some b.
Hypothesis Hf : filter o = None.

(** One step: what becomes of the queued jobs and their views. *)
Lemma step_pending l h w ev h' w' pend :
  opts h = o →
  pending_ok h w pend →
  step l (Live h w) = Some (ev, Live h' w') →
  ∃ pend' calls,
    pending_ok h' w' pend' ∧
    execs w' = (execs w ++ calls)%list ∧
    Forall (fun c => arg c = Some (job c)) calls ∧
    (mergedViews (default ∅ (extra o)) pend.*2 ++
     (if running (q h)
      then expected (default ∅ (extra o)) (fired [l] (Live h w))
      else []))%list
    ≡ₚ (mergedViews (default ∅ (extra o)) pend'.*2 ++ seenViews calls)%list.
Proof.
  intros Ho (Hperm & Hnd & Hall) Hstep.
  destruct l as [p rt| |i]; cbn [fired]; rewrite Hstep; simpl in Hstep.
  - case_decide as Hv; [|done]. destruct Hv as [[e d] Hp].
    destruct (Hook_Fire h rt p w) as [[[h1 w1] r]| |msg] eqn:Hfire; [|done|done].
    injection Hstep as <- <- <-.
    assert (execs w1 = execs w) as Hexecs.
    { by destruct (Hook_Fire_Ok_inv _ _ _ _ _ _ _ Hfire) as (? & ? & _ & _ & -> & _). }
    destruct (snapshot_ok_new _ _ _ _ _ _ _ _ _ Hp Hfire) as (c & v & Hpush & Hc & Hview & Hnew).
    assert (Forall (fun jv => snapshot_ok w1 jv.1 jv.2) pend) as Hall'.
    { eapply Forall_impl; [exact Hall|]. intros [j vj]. simpl.
      by apply (snapshot_ok_Fire _ _ _ _ _ _ _ _ _ _ _ Hp Hfire). }
    apply Push_Ok_inv in Hpush as (_ & _ & _ & Hin & [[Hr Hbuf]|[Hr Hbuf]]).
    + exists pend, []. rewrite Hr, !app_nil_r. repeat split; try done.
      by rewrite Hbuf, Hin.
    + exists (pend ++ [(NewJob c, v)])%list, []. rewrite Hr, Hview.
      unfold mergedViews, expected, seenViews.
      rewrite !fmap_app, !app_nil_r. simpl. repeat split; try done.
      * rewrite fmap_app, Hbuf, Hin, Hperm, <- !app_assoc.
        apply Permutation_app_head, Permutation_app_comm.
      * rewrite fmap_app. apply NoDup_app. split; [done|]. split; [|apply NoDup_singleton].
        intros j Hj ->%list_elem_of_singleton.
        apply list_elem_of_fmap in Hj as ([j' vj] & Heq & Hjv). simpl in Heq. subst j'.
        rewrite Forall_forall in Hall. apply Hall, snapshot_ok_valid in Hjv.
        destruct Hjv as [[ej dj] [Hej _]%deref_Some]. simpl in Hej.
        apply Hc. by apply elem_of_dom_2 in Hej.
      * apply Forall_app. split; [done|]. by constructor.
  - destruct (buffer (q h)) as [|j rest] eqn:Hbuf; [done|].
    case_decide; [|done]. injection Hstep as <- <- <-.
    exists pend, []. split; [|split; [by rewrite app_nil_r|split; [done|]]].
    + split; [|done]. simpl. rewrite Hperm. simpl.
      rewrite (Permutation_app_comm (inflight (q h)) [j]). apply Permutation_middle.
    + by destruct (running (q h)).
  - destruct (inflight (q h) !! i) as [j|] eqn:Hj; [|done].
    destruct (Hook_exec h (payload j) w) as [w1| |msg] eqn:Hexec; [|done|done].
    injection Hstep as <- <- <-.
    assert (j ∈ pend.*1) as Hjin.
    { rewrite Hperm. apply elem_of_app. right. by eapply list_elem_of_lookup_2. }
    apply list_elem_of_fmap in Hjin as ([j' v] & Heq & Hjv). simpl in Heq. subst j'.
    apply elem_of_Permutation in Hjv as [pend' Hpend'].
    pose proof Hpend' as Hpend2.
    rewrite Hpend' in Hperm, Hnd, Hall. simpl in Hperm, Hnd.
    apply NoDup_cons in Hnd as [Hjnot Hnd'].
    apply Forall_cons in Hall as [(e' & d & Hd & Hv & Hcaller & Hown) Hall'].
    simpl in Hd, Hv, Hown.
    pose proof Hb as Hb'. pose proof Hf as Hf'. rewrite <- Ho in Hb', Hf'.
    rewrite (Hook_exec_deref h b (payload j) w e' d Hd Hb'), Hf' in Hexec.
    simpl in Hexec. injection Hexec as <-.
    assert (deref (storeMap (heap w) (Data e') (d ∪ default ∅ (extra (opts h))))
                  (payload j) = Some (e', d ∪ default ∅ (extra (opts h)))) as Hseen
      by (by eapply deref_storeMap_eq).
    eexists pend', [_]. split; [|split; [done|split; [by repeat constructor|]]].
    + split; [|split; [done|]].
      * simpl. apply (Permutation_cons_inv (a := j)). rewrite Hperm.
        rewrite (Permutation_app_comm (buffer (q h))).
        etrans; [apply Permutation_app_tail, (delete_Permutation _ _ _ Hj)|].
        simpl. apply Permutation_cons; [done|]. apply Permutation_app_comm.
      * rewrite Forall_forall in Hall'. apply Forall_forall.
        intros [j2 v2] Hin2. destruct (Hall' _ Hin2) as (e2 & d2 & Hd2 & Hv2 & Hc2 & Hown2).
        simpl in *. exists e2, d2. split; [|done].
        apply deref_storeMap_ne; [done|]. intros Heq.
        apply Hjnot. apply list_elem_of_fmap. exists (j2, v2). split; [|done].
        simpl. pose proof Hd2 as [He2 _]%deref_Some.
        pose proof (Hown _ _ He2 Heq) as Hpp. destruct j, j2; simpl in *; congruence.
    + unfold mergedViews, expected, seenViews. rewrite Hpend2.
      destruct (running (q h)); simpl; rewrite ?app_nil_r;
        rewrite Hseen; simpl; rewrite Hv, Ho;
        (etrans; [apply Permutation_cons_append|done]).
Qed.

Lemma fired_cons l rest σ ev σ' :
  step l σ = Some (ev, σ') → fired (l :: rest) σ = (fired [l] σ ++ fired rest σ')%list.
Proof. intros Hstep. cbn [fired]. rewrite Hstep. by rewrite app_nil_r. Qed.

(** A schedule: what becomes of the queued jobs and their views. *)
Lemma run_pending sched : ∀ h w evs h' w' pend,
  opts h = o →
  pending_ok h w pend →
  run sched (Live h w) = Some (evs, Live h' w') →
  ∃ pend' calls,
    pending_ok h' w' pend' ∧
    execs w' = (execs w ++ calls)%list ∧
    Forall (fun c => arg c = Some (job c)) calls ∧
    (mergedViews (default ∅ (extra o)) pend.*2 ++
     (if running (q h)
      then expected (default ∅ (extra o)) (fired sched (Live h w))
      else []))%list
    ≡ₚ (mergedViews (default ∅ (extra o)) pend'.*2 ++ seenViews calls)%list.
Proof.
  induction sched as [|l sched IH]; intros h w evs h' w' pend Ho Hpend Hrun.
  - injection Hrun as <- <- <-. exists pend, [].
    rewrite app_nil_r. repeat split; try done; try apply Hpend.
    by destruct (running (q h)).
  - apply run_cons_inv in Hrun as (ev & h1 & w1 & evs' & Hstep & Hrun & ->).
    pose proof (step_accounts _ _ _ _ _ _ Hstep) as [Ho1 _ _ Hr1 _ _ _ _].
    destruct (step_pending _ _ _ _ _ _ _ Ho Hpend Hstep)
      as (pend1 & calls1 & Hpend1 & Hex1 & Harg1 & Hviews1).
    destruct (IH h1 w1 evs' h' w' pend1) as (pend2 & calls2 & Hpend2 & Hex2 & Harg2 & Hviews2);
      [congruence|done|done|].
    exists pend2, (calls1 ++ calls2)%list. split; [done|].
    split; [by rewrite Hex2, Hex1, app_assoc|]. split; [by apply Forall_app|].
    rewrite (fired_cons _ _ _ _ _ Hstep). rewrite Hr1 in Hviews2.
    unfold seenViews in *. rewrite fmap_app.
    destruct (running (q h)).
    + unfold expected in *. rewrite fmap_app, app_assoc, Hviews1.
      rewrite <- app_assoc, (Permutation_app_comm _ ((fun v => _) <$> fired sched _)).
      rewrite app_assoc, Hviews2, <- !app_assoc.
      apply Permutation_app_head, Permutation_app_comm.
    + rewrite app_nil_r in *. rewrite Hviews1.
      rewrite (Permutation_app_comm _ ((fun c => _) <$> calls1)), Hviews2.
      rewrite !app_assoc. apply Permutation_app_tail, Permutation_app_comm.
Qed.
End Pending.

Lemma fires_cons l sched : fires (l :: sched) = (fires [l] ++ fires sched)%list.
Proof. unfold fires. change (l :: sched) with ([l] ++ sched)%list. apply bind_app. Qed.

(** On a running queue every call of [Fire] that returns has queued one
    job. *)
Lemma run_fires sched : ∀ h w evs h' w',
  running (q h) = true →
  run sched (Live h w) = Some (evs, Live h' w') →
  length (submitted evs) = length (fires sched) ∧
  length (fired sched (Live h w)) = length (fires sched).
Proof.
  induction sched as [|l sched IH]; intros h w evs h' w' Hr Hrun.
  - by injection Hrun as <- <- <-.
  - apply run_cons_inv in Hrun as (ev & h1 & w1 & evs' & Hstep & Hrun & ->).
    pose proof (step_accounts _ _ _ _ _ _ Hstep) as [_ _ _ Hr1 _ _ _ _].
    destruct (IH h1 w1 evs' h' w') as [IH1 IH2]; [congruence|done|].
    rewrite (fired_cons _ _ _ _ _ Hstep), length_app, IH2.
    change (ev :: evs') with ([ev] ++ evs')%list.
    rewrite submitted_app, length_app, IH1.
    rewrite fires_cons, length_app.
    assert (length (submitted [ev]) = length (fires [l]) ∧
            length (fired [l] (Live h w)) = length (fires [l])) as [-> ->]; [|done].
    cbn [fired]. rewrite Hstep. destruct l as [p rt| |i]; simpl in Hstep.
    + case_decide; [|done].
      destruct (Hook_Fire h rt p w) as [[[h2 w2] r]| |msg] eqn:Hfire; [|done|done].
      injection Hstep as <- <- <-.
      apply Hook_Fire_Ok_inv in Hfire as (c & hp & Hpush & _).
      apply Push_Ok_inv in Hpush as (_ & _ & _ & _ & [[? _]|[_ ->]]); [congruence|].
      unfold submitted; simpl. by rewrite drop_app_length.
    + destruct (buffer (q h)); [done|]. case_decide; [|done].
      by injection Hstep as <- <- <-.
    + destruct (inflight (q h) !! i); [|done].
      destruct (Hook_exec h _ w); [|done|done]. by injection Hstep as <- <- <-.
Qed.

(** The jobs a step queues are new, and what was valid stays valid. *)
Lemma step_submitted_new l h w ev h' w' :
  filter_safe (opts h) → queued_valid h w →
  step l (Live h w) = Some (ev, Live h' w') →
  NoDup (submitted [ev]) ∧
  (∀ j, j ∈ submitted [ev] → ¬ valid (heap w) (payload j) ∧ valid (heap w') (payload j)) ∧
  (∀ x, valid (heap w) x → valid (heap w') x).
Proof.
  intros Hsafe Hq Hstep. destruct l as [p rt| |i]; simpl in Hstep.
  - case_decide as Hv; [|done]. destruct Hv as [[e d] Hp].
    destruct (Hook_Fire_deref h rt p w e d Hp) as (c & hp2 & e' & Hfire & Hc & Hdc & _ & _ & Hval).
    rewrite Hfire in Hstep.
    destruct (Push (q h) (NewJob c)) as [q'| |msg] eqn:Hpush; [|done|done].
    simpl in Hstep. injection Hstep as <- <- <-. simpl.
    apply Push_Ok_inv in Hpush as (_ & _ & _ & _ & [[_ ->]|[_ ->]]);
      unfold submitted; simpl.
    + rewrite drop_all. simpl. split; [constructor|]. split; [|done].
      by intros j Hj%elem_of_nil.
    + rewrite drop_app_length. simpl. split; [apply NoDup_singleton|]. split; [|done].
      intros j ->%list_elem_of_singleton. simpl. split.
      * intros [[ex dx] [Hex _]%deref_Some]. apply Hc. by apply elem_of_dom_2 in Hex.
      * by eexists.
  - destruct (buffer (q h)); [done|]. case_decide; [|done].
    injection Hstep as <- <- <-. unfold submitted; simpl.
    split; [constructor|]. split; [|done]. by intros j0 Hj0%elem_of_nil.
  - destruct (inflight (q h) !! i) as [j|] eqn:Hj; [|done].
    destruct (Hook_exec h (payload j) w) as [w1| |msg] eqn:Hexec; [|done|done].
    injection Hstep as <- <- <-. unfold submitted; simpl.
    split; [constructor|]. split; [by intros j' Hj'%elem_of_nil|].
    pose proof Hexec as (b & _ & Hb & _)%Hook_exec_Ok_inv.
    assert (valid (heap w) (payload j)) as Hvj.
    { unfold queued_valid in Hq. apply Forall_app in Hq as [_ Hin].
      rewrite Forall_lookup in Hin. by apply (Hin i). }
    destruct (Hook_exec_valid h b (payload j) w Hsafe Hb Hvj) as (w1' & Hexec' & Hval).
    rewrite Hexec in Hexec'. by injection Hexec' as <-.
Qed.

Lemma run_submitted_NoDup sched : ∀ h w evs h' w',
  filter_safe (opts h) → queued_valid h w →
  run sched (Live h w) = Some (evs, Live h' w') →
  NoDup (submitted evs) ∧
  (∀ j, j ∈ submitted evs → ¬ valid (heap w) (payload j) ∧ valid (heap w') (payload j)) ∧
  (∀ x, valid (heap w) x → valid (heap w') x).
Proof.
  induction sched as [|l sched IH]; intros h w evs h' w' Hsafe Hq Hrun.
  - injection Hrun as <- <- <-. split; [constructor|]. split; [|done].
    by intros j Hj%elem_of_nil.
  - apply run_cons_inv in Hrun as (ev & h1 & w1 & evs' & Hstep & Hrun & ->).
    pose proof (step_accounts _ _ _ _ _ _ Hstep) as [Ho1 _ _ _ _ _ _ _].
    pose proof (step_queued_valid _ _ _ _ _ _ Hsafe Hq Hstep) as Hq1.
    destruct (step_submitted_new _ _ _ _ _ _ Hsafe Hq Hstep) as (Hnd1 & Hnew1 & Hval1).
    destruct (IH h1 w1 evs' h' w') as (Hnd2 & Hnew2 & Hval2); [by rewrite Ho1|done|done|].
    change (ev :: evs') with ([ev] ++ evs')%list. rewrite submitted_app.
    split; [|split].
    + apply NoDup_app. split; [done|]. split; [|done].
      intros j Hj1 Hj2. destruct (Hnew1 j Hj1) as [_ Hv1]. by destruct (Hnew2 j Hj2).
    + intros j [Hj|Hj]%elem_of_app.
      * destruct (Hnew1 j Hj). auto.
      * destruct (Hnew2 j Hj) as [Hnv Hv]. split; [|done]. intros Hv0. by apply Hnv, Hval1.
    + auto.
Qed.

(** (C9) With a backend whose [Exec] succeeds, for whatever calls of
    [Fire] the schedule [sched] makes before [Flush] is called: [Flush]
    returns on the schedule that lets the workers complete their jobs and
    panics on none, and when [Flush] has returned, on any schedule, the
    queue holds no job, buffered or running, nothing was accepted
    meanwhile, and the pipeline has called [Exec] once for each call of
    [Fire], with success: the calls are as many as the calls of [Fire] in
    [sched], each for another job, the jobs being the copies [Fire]
    queued; and with no filter each call gave [Exec] the job's own entry,
    and what [Exec] was shown, time, level, message and fields, is, up to
    the order of the calls, what the entries fired had when [Fire]
    returned, with the extras merged in. *)
Theorem C9_flush_runs_every_submitted_job_once :
  ∀ opt w_init b sched evs h w,
    exec (opts (New opt w_init).1) = Some b →
    (∀ fe hp, Exec b fe hp = None) →
    filter_safe (opts (New opt w_init).1) →
    0 < maxWorkers (opts (New opt w_init).1) →
    run sched (Live (New opt w_init).1 (New opt w_init).2) = Some (evs, Live h w) →
    (∃ evs' h' w', Hook_Flush (drain h) h w = Ok (evs', h', w')) ∧
    (∀ sched' msg, Hook_Flush sched' h w ≠ Panic msg) ∧
    (∀ sched' evs' h' w',
        Hook_Flush sched' h w = Ok (evs', h', w') →
        buffer (q h') = [] ∧ inflight (q h') = [] ∧ submitted evs' = [] ∧
        ∃ calls,
          execs w' = (execs w_init ++ calls)%list ∧
          NewJob <$> (job <$> calls) ≡ₚ submitted evs ∧
          Forall (fun c => err c = None) calls ∧
          length calls = length (fires sched) ∧
          NoDup (job <$> calls) ∧
          (filter (opts (New opt w_init).1) = None →
           Forall (fun c => arg c = Some (job c)) calls ∧
           seenViews calls
           ≡ₚ expected (default ∅ (extra (opts (New opt w_init).1)))
                       (fired sched (Live (New opt w_init).1 (New opt w_init).2)))).
Proof.
  intros opt w_init b sched evs h w Hb Hok Hsafe Hwk Hrun.
  pose proof (run_accounts _ _ _ _ _ _ Hrun) as [Ho _ Hw _ _ _ _ _].
  assert (queued_valid (New opt w_init).1 (New opt w_init).2) as Hq0 by constructor.
  assert (queued_valid h w) as Hq.
  { eapply run_queued_valid; [exact Hsafe|exact Hq0|exact Hrun]. }
  pose proof Hsafe as Hsafe0. pose proof Hb as Hb0.
  rewrite <- Ho in Hsafe, Hb. split; [|split].
  - apply (Terminate_drain h b w); try done. by rewrite Hw.
  - intros sched' msg. by apply (Terminate_no_panic sched' h b w msg).
  - intros sched' evs' h' w' Hflush.
    destruct (New_run_Flush _ _ _ _ _ _ _ _ _ _ Hrun Hflush)
      as (Hbuf & Hin & Hsub & calls & Hex & Hjobs & Hcalls & _).
    split; [done|]. split; [done|]. split; [done|].
    exists calls. split; [done|]. split; [done|]. split; [|split; [|split]].
    + eapply Forall_impl; [exact Hcalls|]. intros c (b' & hp & Hb' & ->).
      rewrite Hb0 in Hb'. injection Hb' as <-. apply Hok.
    + pose proof (Permutation_length Hjobs) as Hlen. rewrite !length_fmap in Hlen.
      rewrite Hlen. by apply (run_fires sched (New opt w_init).1 _ _ _ _ eq_refl Hrun).
    + destruct (run_submitted_NoDup _ _ _ _ _ _ Hsafe0 Hq0 Hrun) as (Hnd & _).
      rewrite <- Hjobs in Hnd. by apply NoDup_fmap_1 in Hnd.
    + intros Hf.
      assert (pending_ok (New opt w_init).1 (New opt w_init).2 []) as Hp0.
      { split; [done|]. split; constructor. }
      destruct (run_pending b _ Hb0 Hf sched _ _ _ _ _ [] eq_refl Hp0 Hrun)
        as (pend1 & calls1 & Hp1 & Hex1 & Harg1 & Hv1).
      unfold Hook_Flush, Terminate in Hflush.
      destruct (run sched' _) as [[evs2 [h2 w2|msg w2]]|] eqn:Hrun2; [|done|done].
      case_decide as Hidle; [|done]. injection Hflush as <- <- <-.
      destruct (run_pending b _ Hb0 Hf sched'
                  (mkHook (opts h) (mkQueue (capacity (q h)) (workers (q h)) false
                                            (buffer (q h)) (inflight (q h))))
                  _ _ _ _ pend1 Ho Hp1 Hrun2)
        as (pend2 & calls2 & Hp2 & Hex2 & Harg2 & Hv2).
      simpl in Hv1, Hv2. rewrite app_nil_r in Hv2.
      destruct Hp2 as (Hperm & _). rewrite Hbuf, Hin in Hperm. simpl in Hperm.
      apply Permutation_nil_r in Hperm. apply fmap_nil_inv in Hperm. subst pend2.
      simpl in Hv2.
      assert (calls = (calls1 ++ calls2)%list) as ->.
      { destruct (New_world opt w_init) as (_ & Hex0 & _).
        rewrite Hex2, Hex1, Hex0, <- app_assoc in Hex. by apply app_inv_head in Hex. }
      split; [by apply Forall_app|].
      unfold seenViews in *. rewrite fmap_app, <- Hv2, Hv1.
      apply Permutation_app_comm.
Qed.

(** (C8) A hook made with no options has a queue of capacity 512 with 2
    workers, the levels fatal, error, warn, info and debug in that order,
    which is from most to least severe, no extras, no filter, no backend,
    and the standard error stream as its output; [Levels] returns the
    levels of the options the hook was made with, those of the last
    [SetLevels] that names any. *)
Theorem C8_defaults_and_Levels :
  (∀ w,
      capacity (q (New [] w).1) = 512 ∧
      workers (q (New [] w).1) = 2 ∧
      Hook_Levels (New [] w).1
        = [FatalLevel; ErrorLevel; WarnLevel; InfoLevel; DebugLevel] ∧
      level_value <$> Hook_Levels (New [] w).1 = [1; 2; 3; 4; 5] ∧
      extra (opts (New [] w).1) = None ∧
      filter (opts (New [] w).1) = None ∧
      exec (opts (New [] w).1) = None ∧
      out (opts (New [] w).1) = Some os_Stderr) ∧
  (∀ opt w,
      Hook_Levels (New opt w).1 = levels (foldl (fun o f => f o) defaultOptions opt)) ∧
  (∀ opt l ls w, Hook_Levels (New (opt ++ [SetLevels (l :: ls)]) w).1 = l :: ls) ∧
  (∀ opt w, Hook_Levels (New (opt ++ [SetLevels []]) w).1 = Hook_Levels (New opt w).1).
Proof.
  split; [done|]. split; [done|]. split.
  - intros opt l ls w. unfold Hook_Levels, New; simpl. by rewrite foldl_app.
  - intros opt w. unfold Hook_Levels, New; simpl. by rewrite foldl_app.
Qed.

(** ** Instances *)

Lemma deref_world1 : deref (heap world1) 1%positive = Some (entry1, fields1).
Proof. vm_compute. reflexivity. Defined.

Lemma valid_world1 : valid (heap world1) 1%positive.
Proof. exists (entry1, fields1). exact deref_world1. Defined.


Lemma C3_witness :
  ∃ d',
    mergeExtra (map_to_list extras1) 1%positive heap1 = Ok (storeMap heap1 1%positive d') ∧
    d' !! "user" = Some (VString "bob") ∧
    d' !! "host" = Some (VString "web-1").
Proof.
  destruct (C3_merge_keeps_entry_values extras1 (map_to_list extras1) heap1 1%positive
              entry1 fields1 (reflexivity _) deref_world1)
    as (d' & Hmerge & _ & Hown & Hextra).
  exists d'. split; [exact Hmerge|]. split.
  - apply Hown. vm_compute. reflexivity.
  - rewrite Hextra by (vm_compute; reflexivity). vm_compute. reflexivity.
Defined.

Lemma C5_witness :
  ∃ c hp' e',
    Hook_copyEntry (New [] world1).1 1%positive heap1 = Ok (c, hp') ∧
    c ≠ 1%positive ∧
    Data e' ≠ 1%positive ∧
    deref hp' c = Some (e', fields1) ∧
    Message e' = "added" ∧
    deref (storeMap hp' 1%positive ∅) c = Some (e', fields1).
Proof.
  destruct (C5_copyEntry_snapshot (New [] world1).1 heap1 1%positive entry1 fields1
              deref_world1)
    as (c & hp' & e' & Hcopy & Hc & _ & Hm & Hdc & _ & _ & Hmsg & _ & Hind & _).
  exists c, hp', e'. split; [exact Hcopy|]. split.
  - intros ->. apply Hc. vm_compute. reflexivity.
  - split; [exact Hm|]. split; [exact Hdc|]. split; [exact Hmsg|]. apply (Hind ∅).
Defined.

Lemma C6_witness :
  callSite rt1 1%positive heap1 =
    Ok (storeMap heap1 1%positive
          (<["func" := VString "cart.(*Cart).Add"]>
             (<["file" := VString "/src/cart.go:42"]> fields1))).
Proof.
  destruct (C6_call_site_resolution rt1 heap1 1%positive entry1 fields1
              deref_world1 (reflexivity _))
    as (d' & Hsite & _ & _ & Hfirst & _ & _).
  rewrite Hsite. f_equal. f_equal.
  apply (Hfirst [logrus_frame] main_frame []).
  - reflexivity.
  - constructor; [reflexivity|constructor].
  - reflexivity.
Defined.

Lemma C7_witness :
  Hook_exec (New [SetExec (Some always_ok); SetFilter (Some identity_filter)] world1).1
            1%positive world1
  = Hook_exec (New [SetExec (Some always_ok)] world1).1 1%positive world1.
Proof.
  destruct (C7_identity_filter
              (New [SetExec (Some always_ok); SetFilter (Some identity_filter)] world1).1
              identity_filter 1%positive world1 (reflexivity _)
              (fun x hp => reflexivity _))
    as [Hsame _].
  exact Hsame.
Defined.

Lemma C10_witness :
  ∃ h' w',
    Hook_Fire (New [] world1).1 rt1 1%positive world1 = Ok (h', w', None) ∧
    deref (heap w') 1%positive = Some (entry1, resolvedFields rt1 fields1) ∧
    resolvedFields rt1 fields1 !! "func" = Some (VString "cart.(*Cart).Add").
Proof.
  destruct (C10_Fire_writes_into_original (New [] world1).1 rt1 1%positive world1
              entry1 fields1 deref_world1)
    as (h' & w' & c & e' & Hfire & _ & _ & Hcaller & _).
  { right. simpl. lia. }
  destruct (Hcaller (reflexivity _)) as (Horig & _ & Hfields).
  exists h', w'. split; [exact Hfire|]. split; [exact Horig|].
  apply (Hfields main_frame). reflexivity.
Defined.


Lemma C9_witness :
  ∃ evs h w evs' h' w',
    run staggered_schedule
        (Live (New merging_options world5).1 (New merging_options world5).2)
      = Some (evs, Live h w) ∧
    Hook_Flush (drain h) h w = Ok (evs', h', w') ∧
    buffer (q h') = [] ∧ inflight (q h') = [] ∧
    ∃ calls, execs w' = calls ∧
             NewJob <$> (job <$> calls) ≡ₚ submitted evs ∧
             Forall (fun c => err c = None) calls ∧
             length calls = 5%nat ∧
             NoDup (job <$> calls) ∧
             Forall (fun c => arg c = Some (job c)) calls ∧
             seenViews calls
             ≡ₚ (fun n : positive =>
                   Some (1700000000 + Z.pos n, WarnLevel, "low stock",
                         {[ "item" := VInt (Z.pos n) ]} ∪ extras1))
                <$> [1; 2; 3; 4; 5]%positive.
Proof.
  eassert (run staggered_schedule
               (Live (New merging_options world5).1 (New merging_options world5).2)
           = Some (_, Live _ _)) as Hrun by (vm_compute; reflexivity).
  match type of Hrun with
  | _ = Some (_, Live ?h ?w) =>
      eassert (Hook_Flush (drain h) h w = Ok (_, _, _)) as Hflush
        by (vm_compute; reflexivity)
  end.
  assert (filter_safe (opts (New merging_options world5).1)) as Hsafe
    by (intros f Hf; discriminate Hf).
  match type of Hrun with
  | _ = Some (?evs, Live ?h ?w) =>
      destruct (C9_flush_runs_every_submitted_job_once
                  merging_options world5 always_ok staggered_schedule evs h w
                  (reflexivity _) (fun _ _ => reflexivity _) Hsafe
                  (reflexivity _) Hrun)
        as (_ & _ & Hall)
  end.
  destruct (Hall _ _ _ _ Hflush)
    as (Hbuf & Hin & _ & calls & Hex & Hjobs & Herr & Hlen & Hnd & Hseen).
  destruct (Hseen (reflexivity _)) as [Harg Hviews].
  eexists _, _, _, _, _, _.
  split; [exact Hrun|]. split; [exact Hflush|].
  split; [exact Hbuf|]. split; [exact Hin|].
  exists calls. split; [exact Hex|]. split; [exact Hjobs|]. split; [exact Herr|].
  split; [exact Hlen|]. split; [exact Hnd|]. split; [exact Harg|].
  etrans; [exact Hviews|]. vm_compute. reflexivity.
Defined.

(** * More of the package *)

(** ** Options *)

Lemma foldl_options_preserve {A} (proj : options → A) (later : list Option) : ∀ o,
  Forall (fun f : Option => ∀ o, proj (f o) = proj o) later →
  proj (foldl (fun o f => f o) o later) = proj o.
Proof.
  induction later as [|f later IH]; intros o Hall; simpl; [done|].
  apply Forall_cons in Hall as [Hf Hall]. by rewrite IH, Hf.
Qed.

(** (X1) [New] applies the options from left to right: what an option sets
    in a field is what the hook has when none of the options after it
    touches that field, whatever the options before it did. *)
Theorem X1_New_later_option_decides :
  ∀ (A : Type) (proj : options → A) (set : Option) (v : A)
    (earlier later : list Option) (w : World),
    (∀ o, proj (set o) = v) →
    Forall (fun f : Option => ∀ o, proj (f o) = proj o) later →
    proj (opts (New (earlier ++ set :: later) w).1) = v.
Proof.
  intros A proj set v earlier later w Hset Hlater. unfold New; simpl.
  rewrite foldl_app; simpl. by rewrite foldl_options_preserve.
Qed.

(** (X2) [Default] and [DefaultWithURL] put their own backend after the
    caller's options: the hook has that backend even when the caller passed
    a [SetExec], nothing is logged, and every other field is what [New]
    gives for the caller's options. *)
Theorem X2_Default_backend_overrides :
  ∀ (MongoDBClient : Type) (NewExec NewExecWithURL : MongoDBClient → string → ExecCloser)
    (sess : MongoDBClient) (cName : string) (opts' : list Option) (w : World),
    (exec (opts (Default MongoDBClient NewExec sess cName opts' w).1)
       = Some (NewExec sess cName) ∧
     (Default MongoDBClient NewExec sess cName opts' w).2 = w ∧
     opts (Default MongoDBClient NewExec sess cName opts' w).1
       = SetExec (Some (NewExec sess cName)) (opts (New opts' w).1)) ∧
    (exec (opts (DefaultWithURL MongoDBClient NewExecWithURL sess cName opts' w).1)
       = Some (NewExecWithURL sess cName) ∧
     (DefaultWithURL MongoDBClient NewExecWithURL sess cName opts' w).2 = w ∧
     opts (DefaultWithURL MongoDBClient NewExecWithURL sess cName opts' w).1
       = SetExec (Some (NewExecWithURL sess cName)) (opts (New opts' w).1)).
Proof.
  intros M NE NU sess cName opts' w.
  unfold Default, DefaultWithURL, New; simpl. rewrite !foldl_app; simpl.
  by destruct w.
Qed.

(** ** The pipeline *)

(** (X3) The pipeline writes to the output only when [Exec] fails and an
    output is set: with [out] nil, or with [Exec] answering nil, it calls
    [Exec] once, writes nothing and logs nothing. *)
Theorem X3_pipeline_silent :
  ∀ h b p w,
    valid (heap w) p →
    exec (opts h) = Some b →
    ∃ w' call,
      Hook_exec h p w = Ok w' ∧
      execs w' = (execs w ++ [call])%list ∧
      logged w' = logged w ∧
      (out (opts h) = None ∨ err call = None → written w' = written w) ∧
      (∀ o msg, out (opts h) = Some o → err call = Some msg →
                written w' = (written w ++ [(o, "[Mongo-Hook] Execution error: " +:+ msg)])%list).
Proof.
  intros h b p w [[e d] Hp] Hb. rewrite (Hook_exec_deref h b p w e d Hp Hb).
  eexists _, _. split; [done|]. cbn [execs written logged err].
  split; [done|]. split; [done|].
  destruct (Exec b _ _) as [m|], (out (opts h)) as [o'|]; simpl;
    rewrite ?app_nil_r; split; try done.
  - by intros [?|?].
  - by intros o msg [= <-] [= <-].
Qed.

(** (X4) The filter runs after the extras are merged in, on the entry with
    the merged map, and what it returns is what [Exec] is called with, nil
    included; the heap the filter leaves is the heap after the pipeline. *)
Theorem X4_filter_after_merge :
  ∀ h b (f : FilterHandle) p w e d,
    deref (heap w) p = Some (e, d) →
    exec (opts h) = Some b →
    filter (opts h) = Some f →
    let merged := storeMap (heap w) (Data e) (d ∪ default ∅ (extra (opts h))) in
    ∃ w',
      Hook_exec h p w = Ok w' ∧
      deref merged p = Some (e, d ∪ default ∅ (extra (opts h))) ∧
      heap w' = (f p merged).2 ∧
      execs w' = (execs w ++
        [mkExecCall p (f p merged).1 ((f p merged).1 ≫= deref (f p merged).2)
                      (Exec b (f p merged).1 (f p merged).2)])%list.
Proof.
  intros h b f p w e d Hp Hb Hf merged.
  rewrite (Hook_exec_deref h b p w e d Hp Hb), Hf. fold merged.
  eexists. split; [done|]. simpl. split; [|done].
  by eapply deref_storeMap_eq.
Qed.

(** (X5) Merging the extras adds keys and removes none, and merging them a
    second time changes nothing. *)
Theorem X5_merge_grows_and_settles :
  ∀ (x : Fields) hp p e d,
    deref hp p = Some (e, d) →
    ∃ hp1 d1,
      mergeExtra (map_to_list x) p hp = Ok hp1 ∧
      deref hp1 p = Some (e, d1) ∧
      dom d1 = dom d ∪ dom x ∧
      mergeExtra (map_to_list x) p hp1 = Ok hp1.
Proof.
  intros x hp p e d Hp.
  exists (storeMap hp (Data e) (d ∪ x)), (d ∪ x).
  assert (deref (storeMap hp (Data e) (d ∪ x)) p = Some (e, d ∪ x)) as Hp1
    by (by eapply deref_storeMap_eq).
  split; [|split; [done|split]].
  - by rewrite (mergeExtra_deref _ _ _ _ _ Hp), list_to_map_to_list.
  - apply dom_union_L.
  - rewrite (mergeExtra_deref _ _ _ _ _ Hp1), list_to_map_to_list.
    rewrite storeMap_storeMap. by rewrite <- (assoc_L (∪)), (idemp_L (∪)).
Qed.

(** ** Fire and the snapshot *)

(** (X6) A call of [Fire] that returns has called no backend, written to no
    output and logged nothing, and has kept the options. In the heap it has
    left every entry object as it was and every map as it was, but for the
    map of the entry it was given, which any entry sharing that map sees
    with the resolver's fields. *)
Theorem X6_Fire_frame :
  ∀ h rt p w e d h' w' r,
    deref (heap w) p = Some (e, d) →
    Hook_Fire h rt p w = Ok (h', w', r) →
    execs w' = execs w ∧ written w' = written w ∧ logged w' = logged w ∧
    opts h' = opts h ∧
    ∀ x ex dx,
      deref (heap w) x = Some (ex, dx) →
      deref (heap w') x
        = Some (ex, if decide (Data ex = Data e)
                    then (if HasCaller e then resolvedFields rt d else d)
                    else dx).
Proof.
  intros h rt p w e d h' w' r Hp Hfire. unfold Hook_Fire in Hfire.
  rewrite (callSite_deref _ _ _ _ _ Hp) in Hfire. simpl in Hfire.
  set (d1 := if HasCaller e then resolvedFields rt d else d) in *.
  set (hp1 := storeMap (heap w) (Data e) d1) in *.
  assert (deref hp1 p = Some (e, d1)) as Hp1 by (by eapply deref_storeMap_eq).
  destruct (Hook_copyEntry h p hp1) as [[c hp2]| |msg] eqn:Hcopy; [|done|done].
  simpl in Hfire. destruct (Push (q h) (NewJob c)) as [q'| |msg]; [|done|done].
  injection Hfire as <- <- <-. simpl. repeat split; try done.
  destruct (Hook_copyEntry_frame _ _ _ _ _ _ _ Hp1 Hcopy) as (_ & _ & Hframe).
  intros x ex dx Hx. apply Hframe. case_decide as Heq.
  - apply deref_Some in Hx as [Hex _]. apply deref_Some. split; [done|].
    rewrite Heq. simpl. apply lookup_insert_eq.
  - by apply deref_storeMap_ne.
Qed.

(** (X7) The copy carries the logger of the original and no caller: it
    does not count as having one, and the resolver run on it leaves the
    heap as it is. *)
Theorem X7_copy_has_no_caller :
  ∀ h hp p e d c hp',
    deref hp p = Some (e, d) →
    Hook_copyEntry h p hp = Ok (c, hp') →
    ∃ e',
      deref hp' c = Some (e', d) ∧
      Logger_ e' = Logger_ e ∧
      Caller e' = None ∧
      HasCaller e' = false ∧
      ∀ rt, callSite rt c hp' = Ok hp'.
Proof.
  intros h hp p e d c hp' Hp Hcopy.
  rewrite (Hook_copyEntry_deref h hp p e d Hp) in Hcopy. simpl in Hcopy.
  injection Hcopy as <- <-.
  set (m0 := newMap hp).
  set (m := newMap (mkHeap _ _)).
  set (e' := mkEntry (Logger_ e) m (Time e) (Level_ e) None (Message e)).
  assert (HasCaller e' = false) as Hno.
  { unfold HasCaller; simpl. destruct (Logger_ e); [|done]. apply andb_false_r. }
  assert (deref (mkHeap (<[fresh (dom (entries hp)) := e']> (entries hp))
                        (<[m := d]> (<[m0 := ∅]> (maps hp))))
                (fresh (dom (entries hp))) = Some (e', d)) as Hc.
  { apply deref_Some; simpl. by rewrite !lookup_insert_eq. }
  exists e'. repeat split; try done.
  intros rt. rewrite (callSite_deref _ _ _ _ _ Hc), Hno.
  apply f_equal, storeMap_id. simpl. apply lookup_insert_eq.
Qed.

(** (X8) Two copies of one entry are two entries with two maps, and the
    pipeline run on one of them, without a filter, leaves the other and the
    original as they were: jobs do not reach into each other. *)
Theorem X8_jobs_do_not_share :
  ∀ h b hp p e d c1 hp1 c2 hp2 w,
    deref hp p = Some (e, d) →
    Hook_copyEntry h p hp = Ok (c1, hp1) →
    Hook_copyEntry h p hp1 = Ok (c2, hp2) →
    exec (opts h) = Some b →
    filter (opts h) = None →
    heap w = hp2 →
    ∃ e1 e2 w',
      c1 ≠ c2 ∧ c1 ≠ p ∧ c2 ≠ p ∧
      deref hp2 c1 = Some (e1, d) ∧ deref hp2 c2 = Some (e2, d) ∧
      Data e1 ≠ Data e2 ∧ Data e1 ≠ Data e ∧ Data e2 ≠ Data e ∧
      Hook_exec h c1 w = Ok w' ∧
      deref (heap w') c1 = Some (e1, d ∪ default ∅ (extra (opts h))) ∧
      deref (heap w') c2 = Some (e2, d) ∧
      deref (heap w') p = Some (e, d).
Proof.
  intros h b hp p e d c1 hp1 c2 hp2 w Hp Hcopy1 Hcopy2 Hb Hf Hw.
  destruct (Hook_copyEntry_frame _ _ _ _ _ _ _ Hp Hcopy1)
    as (Hc1 & (e1 & Hd1 & Hm1) & Hframe1).
  pose proof (Hframe1 _ _ _ Hp) as Hp1.
  destruct (Hook_copyEntry_frame _ _ _ _ _ _ _ Hp1 Hcopy2)
    as (Hc2 & (e2 & Hd2 & Hm2) & Hframe2).
  pose proof (Hframe2 _ _ _ Hp1) as Hp2. pose proof (Hframe2 _ _ _ Hd1) as Hd12.
  assert (∀ hp0 x ex dx, deref hp0 x = Some (ex, dx) →
            x ∈ dom (entries hp0) ∧ Data ex ∈ dom (maps hp0)) as Hin.
  { intros hp0 x ex dx [? ?]%deref_Some. split; apply elem_of_dom; eauto. }
  destruct (Hin _ _ _ _ Hp) as [Hpin Hmin].
  destruct (Hin _ _ _ _ Hd1) as [Hc1in Hm1in].
  destruct (Hin _ _ _ _ Hp1) as [Hpin1 Hmin1].
  assert (Data e1 ≠ Data e2) as Hne12 by (intros Heq; apply Hm2; by rewrite <- Heq).
  assert (Data e1 ≠ Data e) as Hne1 by (intros Heq; apply Hm1; by rewrite Heq).
  assert (Data e2 ≠ Data e) as Hne2 by (intros Heq; apply Hm2; by rewrite Heq).
  subst hp2. pose proof (Hook_exec_deref h b c1 w e1 d Hd12 Hb) as Hexec.
  rewrite Hf in Hexec. simpl in Hexec.
  exists e1, e2. eexists. repeat split; try done.
  - intros ->. by apply Hc2.
  - intros ->. by apply Hc1.
  - intros ->. by apply Hc2.
  - simpl. by eapply deref_storeMap_eq.
  - simpl. apply deref_storeMap_ne; [done|]. by apply not_eq_sym.
  - simpl. apply deref_storeMap_ne; [done|]. by apply not_eq_sym.
Qed.

(** (X9) The backend is shown the entry as it stood when the copy was
    taken: whatever the producer stores in the original's map afterwards,
    the pipeline run on the copy, without a filter, hands [Exec] the copied
    pairs with the extras merged in, and leaves in the original's map what
    the producer stored, extras not added. *)
Theorem X9_backend_sees_snapshot :
  ∀ h b hp p e d c hp' (d2 : Fields) w,
    deref hp p = Some (e, d) →
    Hook_copyEntry h p hp = Ok (c, hp') →
    exec (opts h) = Some b →
    filter (opts h) = None →
    heap w = storeMap hp' (Data e) d2 →
    ∃ e' w' call,
      Hook_exec h c w = Ok w' ∧
      execs w' = (execs w ++ [call])%list ∧
      arg call = Some c ∧
      seen call = Some (e', d ∪ default ∅ (extra (opts h))) ∧
      Time e' = Time e ∧ Level_ e' = Level_ e ∧ Message e' = Message e ∧
      deref (heap w') p = Some (e, d2).
Proof.
  intros h b hp p e d c hp' d2 w Hp Hcopy Hb Hf Hw.
  pose proof Hcopy as Hcopy'.
  rewrite (Hook_copyEntry_deref h hp p e d Hp) in Hcopy'. simpl in Hcopy'.
  destruct (Hook_copyEntry_frame _ _ _ _ _ _ _ Hp Hcopy)
    as (Hc & (e' & Hdc & Hm) & Hframe).
  pose proof (Hframe _ _ _ Hp) as Hp'.
  assert (Data e' ≠ Data e) as Hne.
  { intros Heq. apply Hm. rewrite Heq. apply elem_of_dom.
    apply deref_Some in Hp as [_ ?]. eauto. }
  assert (deref (heap w) c = Some (e', d)) as Hwc.
  { rewrite Hw. by apply deref_storeMap_ne. }
  assert (deref (heap w) p = Some (e, d2)) as Hwp.
  { rewrite Hw. by eapply deref_storeMap_eq. }
  assert (Time e' = Time e ∧ Level_ e' = Level_ e ∧ Message e' = Message e) as Hsame.
  { injection Hcopy' as <- <-. apply deref_Some in Hdc as [He' _]. simpl in He'.
    rewrite lookup_insert_eq in He'. by injection He' as <-. }
  rewrite (Hook_exec_deref h b c w e' d Hwc Hb), Hf. simpl.
  exists e'. eexists _, _. split; [done|]. simpl. split; [done|]. split; [done|].
  split; [by erewrite deref_storeMap_eq|]. split; [apply Hsame|].
  split; [apply Hsame|]. split; [apply Hsame|].
  apply deref_storeMap_ne; [done|]. by apply not_eq_sym.
Qed.

(** ** The resolver *)

Lemma resolveCallSite_from window fallback fr :
  resolveCallSite window fallback = Some fr →
  fr ∈ window ∨ fallback = Some fr.
Proof.
  unfold resolveCallSite.
  destruct (List.find _ window) as [fr'|] eqn:Hfind.
  - intros [= <-]. left. apply List.find_some in Hfind as [Hin _].
    by apply list_elem_of_In.
  - destruct window; [done|]. by right.
Qed.

(** (X10) The resolver writes "file" and "func" together or not at all,
    from a frame among the first three or from the caller at depth 8, over
    whatever the entry had under these two keys, and only for an entry with
    a caller; every other key of the map keeps its value. *)
Theorem X10_resolver_touches_two_keys :
  ∀ rt hp p e d,
    deref hp p = Some (e, d) →
    ∃ d',
      callSite rt p hp = Ok (storeMap hp (Data e) d') ∧
      (∀ k, k ≠ "file" → k ≠ "func" → d' !! k = d !! k) ∧
      (d' = d ∨
       ∃ fr,
         HasCaller e = true ∧
         (fr ∈ take 3 (Callers6 rt) ∨ Caller8 rt = Some fr) ∧
         d' !! "file" = Some (VString (File fr +:+ ":" +:+ pretty (Line fr))) ∧
         d' !! "func" = Some (VString (Base (Function fr)))).
Proof.
  intros rt hp p e d Hp. rewrite (callSite_deref _ _ _ _ _ Hp).
  eexists. split; [done|].
  destruct (HasCaller e); [|by split; [|left]].
  unfold resolvedFields.
  destruct (resolveCallSite _ _) as [fr|] eqn:Hres; [|by split; [|left]].
  split.
  - intros k Hfile Hfunc. unfold frameFields. by rewrite !lookup_insert_ne.
  - right. exists fr. split; [done|]. split; [by apply resolveCallSite_from|].
    unfold frameFields. split; [|apply lookup_insert_eq].
    rewrite lookup_insert_ne by done. apply lookup_insert_eq.
Qed.

(** (X11) On a stack whose three frames from depth 6 are inside logrus
    the entry gets the fields of the frame that follows them, which is the
    caller at depth 8, whether that frame is itself inside logrus or not,
    and none when the stack ends there; the frames after that one play no
    part. *)
Theorem X11_fallback_is_the_fourth_frame :
  ∀ w3 rest hp p e d,
    deref hp p = Some (e, d) →
    HasCaller e = true →
    length w3 = 3%nat →
    Forall (fun f => insideLogrus f = true) w3 →
    callSite (onStack (w3 ++ rest)) p hp =
      Ok (storeMap hp (Data e)
            (match rest with
             | fr :: _ =>
                 <["func" := VString (Base (Function fr))]>
                   (<["file" := VString (File fr +:+ ":" +:+ pretty (Line fr))]> d)
             | [] => d
             end)).
Proof.
  intros w3 rest hp p e d Hp Hcaller Hlen Hall.
  rewrite (callSite_deref _ _ _ _ _ Hp), Hcaller.
  unfold resolvedFields, resolveCallSite, onStack; simpl.
  rewrite take_app_le by lia. rewrite firstn_all2 by (rewrite Hlen; lia).
  rewrite find_none.
  - rewrite lookup_app_r by lia. rewrite Hlen. simpl.
    destruct w3; [done|]. by destruct rest.
  - eapply Forall_impl; [exact Hall|]. by intros f ->.
Qed.

Lemma append_String c s b : String c s +:+ b = String c (s +:+ b).
Proof. reflexivity. Qed.

Lemma HasPrefix_spec prefix : ∀ s,
  HasPrefix s prefix = true ↔ ∃ b, s = prefix +:+ b.
Proof.
  induction prefix as [|c prefix IH]; intros s; simpl.
  - split; [by exists s|by destruct s].
  - destruct s as [|c' s]; simpl.
    + split; [done|]. intros [b Hb]. by rewrite append_String in Hb.
    + case_decide as Hc.
      * subst c'. rewrite IH.
        split; intros [b Hb]; exists b; rewrite append_String in *; congruence.
      * split; [done|]. intros [b Hb]. rewrite append_String in Hb. congruence.
Qed.

Lemma Contains_spec sub : ∀ s,
  Contains s sub = true ↔ ∃ a b, s = a +:+ sub +:+ b.
Proof.
  induction s as [|c s IH].
  - cbn [Contains]. rewrite orb_false_r, HasPrefix_spec. split.
    + intros [b Hb]. by exists "", b.
    + intros ([|c a] & b & Hab); [by exists b|done].
  - cbn [Contains]. rewrite orb_true_iff, HasPrefix_spec, IH. split.
    + intros [[b Hb]|(a & b & Hab)].
      * by exists "", b.
      * exists (String c a), b. by rewrite append_String, Hab.
    + intros ([|c' a] & b & Hab).
      * left. by exists b.
      * right. exists a, b. rewrite append_String in Hab. congruence.
Qed.

(** (X12) The resolver takes a frame to be inside logrus exactly when the
    name of its function has "github.com/sirupsen/logrus" somewhere in it:
    a function of any package whose path contains that text is passed
    over. *)
Theorem X12_inside_logrus_is_substring :
  ∀ fr,
    insideLogrus fr = true ↔
    ∃ a b, Function fr = a +:+ "github.com/sirupsen/logrus" +:+ b.
Proof. intros fr. unfold insideLogrus. apply Contains_spec. Qed.

Lemma untilSlash_id l : slash ∉ l → untilSlash l = l.
Proof.
  induction l as [|c l IH]; intros Hl; [done|].
  apply not_elem_of_cons in Hl as [Hc Hl].
  cbn [untilSlash]. rewrite decide_False by done. by rewrite IH.
Qed.

Lemma Base_plain name :
  name ≠ "" → slash ∉ list_ascii_of_string name → Base name = name.
Proof.
  intros Hne Hns. unfold Base. rewrite decide_False by done.
  set (l := list_ascii_of_string name) in *.
  assert (slash ∉ rev l) as Hr.
  { intros Hin. apply Hns. by apply list_elem_of_In, in_rev, list_elem_of_In. }
  assert (stripSlashes (rev l) = rev l) as ->.
  { destruct (rev l) as [|c r]; [done|]. cbn [stripSlashes].
    rewrite decide_False; [done|]. intros ->. apply Hr. left. }
  rewrite untilSlash_id by done. rewrite rev_involutive. unfold l.
  rewrite string_of_list_ascii_of_string. by rewrite decide_False.
Qed.

(** (X13) The field "func" is the function's name without its path: for a
    name with no slash the name itself, for a name [dir/name] what follows
    the last slash; the field "file" is the file, a colon and the line. *)
Theorem X13_func_field_is_last_element :
  ∀ fr hp p e d name,
    deref hp p = Some (e, d) →
    name ≠ "" →
    slash ∉ list_ascii_of_string name →
    Function fr = name ∨ (∃ dir, Function fr = dir +:+ "/" +:+ name) →
    ∃ d',
      writeFrame fr p hp = Ok (storeMap hp (Data e) d') ∧
      d' !! "func" = Some (VString name) ∧
      d' !! "file" = Some (VString (File fr +:+ ":" +:+ pretty (Line fr))).
Proof.
  intros fr hp p e d name Hp Hne Hns Hname.
  rewrite (writeFrame_deref _ _ _ _ _ Hp). eexists. split; [done|].
  unfold frameFields. split.
  - rewrite lookup_insert_eq. do 2 f_equal.
    destruct Hname as [-> | [dir ->]];
      [by apply Base_plain|by apply Base_strips_prefix].
  - rewrite lookup_insert_ne by done. apply lookup_insert_eq.
Qed.

(** ** From Fire to the backend *)

(** (X14) What the backend gets for a fired entry: on a running queue with
    room, [Fire] queues one job, and the pipeline run on it, without a
    filter, calls [Exec] once on the copy, whose time, level and message
    are the entry's and whose map holds the entry's pairs, over them the
    resolver's "file" and "func" when the entry has a caller, and the
    extras under the keys still free. *)
Theorem X14_fired_entry_at_the_backend :
  ∀ h b rt p w e d,
    deref (heap w) p = Some (e, d) →
    exec (opts h) = Some b →
    filter (opts h) = None →
    running (q h) = true →
    Z.of_nat (length (buffer (q h))) < capacity (q h) →
    ∃ h' w1 c e' w2 call,
      Hook_Fire h rt p w = Ok (h', w1, None) ∧
      buffer (q h') = (buffer (q h) ++ [NewJob c])%list ∧
      Hook_exec h' c w1 = Ok w2 ∧
      execs w2 = (execs w ++ [call])%list ∧
      job call = c ∧ arg call = Some c ∧
      seen call = Some (e', (if HasCaller e then resolvedFields rt d else d)
                            ∪ default ∅ (extra (opts h))) ∧
      Time e' = Time e ∧ Level_ e' = Level_ e ∧ Message e' = Message e.
Proof.
  intros h b rt p w e d Hp Hb Hf Hrun Hroom.
  set (d1 := if HasCaller e then resolvedFields rt d else d).
  set (hp1 := storeMap (heap w) (Data e) d1).
  assert (deref hp1 p = Some (e, d1)) as Hp1 by (by eapply deref_storeMap_eq).
  pose proof (Hook_copyEntry_deref h hp1 p e d1 Hp1) as Hcopy. simpl in Hcopy.
  set (c := fresh (dom (entries hp1))) in Hcopy.
  set (e' := mkEntry _ _ _ _ _ _) in Hcopy. set (hp2 := mkHeap _ _) in Hcopy.
  assert (deref hp2 c = Some (e', d1)) as Hc.
  { apply deref_Some; simpl. by rewrite !lookup_insert_eq. }
  assert (Hook_Fire h rt p w =
            Ok (mkHook (opts h)
                  (mkQueue (capacity (q h)) (workers (q h)) true
                           (buffer (q h) ++ [NewJob c]) (inflight (q h))),
                set_heap w hp2, None)) as Hfire.
  { unfold Hook_Fire. rewrite (callSite_deref _ _ _ _ _ Hp). simpl.
    fold d1 hp1. rewrite Hcopy. simpl. unfold Push.
    rewrite Hrun. by rewrite decide_True. }
  assert (deref (storeMap hp2 (Data e') (d1 ∪ default ∅ (extra (opts h)))) c
          = Some (e', d1 ∪ default ∅ (extra (opts h)))) as Hseen
    by (by eapply deref_storeMap_eq).
  eexists _, _, c, e', _, _. split; [exact Hfire|]. split; [done|].
  split; [by apply (Hook_exec_deref _ b c (set_heap w hp2) e' d1)|].
  simpl. rewrite Hf. simpl. split; [done|]. split; [done|]. split; [done|].
  split; [|done]. exact Hseen.
Qed.

(** ** Instances of the further properties *)

Lemma X1_witness : maxQueues (opts (New queue_options world1).1) = 8.
Proof.
  apply (X1_New_later_option_decides Z maxQueues (SetMaxQueues 8) 8
           [SetMaxQueues 1] [SetMaxWorkers 4; SetLevels []; SetOut None] world1).
  - intros o. reflexivity.
  - repeat constructor.
Defined.

Lemma X3_witness :
  ∃ w', Hook_exec (New silent_options world1).1 1%positive world1 = Ok w' ∧
        written w' = [].
Proof.
  destruct (X3_pipeline_silent (New silent_options world1).1 disk_full 1%positive
              world1 valid_world1 (reflexivity _))
    as (w' & call & Hexec & _ & _ & Hsilent & _).
  exists w'. split; [exact Hexec|]. apply Hsilent. left. reflexivity.
Defined.

Lemma X4_witness :
  ∃ w' call,
    Hook_exec (New suppressing_options world1).1 1%positive world1 = Ok w' ∧
    execs w' = [call] ∧ arg call = None.
Proof.
  destruct (X4_filter_after_merge (New suppressing_options world1).1 always_ok
              nil_filter 1%positive world1 entry1 fields1 deref_world1
              (reflexivity _) (reflexivity _))
    as (w' & Hexec & _ & _ & Hcalls).
  eexists w', _. split; [exact Hexec|]. split; [exact Hcalls|reflexivity].
Defined.

Lemma X5_witness :
  ∃ hp1,
    mergeExtra (map_to_list extras1) 1%positive heap1 = Ok hp1 ∧
    mergeExtra (map_to_list extras1) 1%positive hp1 = Ok hp1.
Proof.
  destruct (X5_merge_grows_and_settles extras1 heap1 1%positive entry1 fields1
              deref_world1)
    as (hp1 & d1 & Hmerge & _ & _ & Hagain).
  exists hp1. split; [exact Hmerge|exact Hagain].
Defined.

Lemma X6_witness :
  ∃ h' w',
    Hook_Fire (New [] world1).1 rt1 1%positive world1 = Ok (h', w', None) ∧
    execs w' = [] ∧
    deref (heap w') 1%positive = Some (entry1, resolvedFields rt1 fields1).
Proof.
  eassert (Hook_Fire (New [] world1).1 rt1 1%positive world1 = Ok (_, _, None))
    as Hfire by (vm_compute; reflexivity).
  destruct (X6_Fire_frame _ _ _ _ _ _ _ _ _ deref_world1 Hfire)
    as (Hexecs & _ & _ & _ & Hframe).
  eexists _, _. split; [exact Hfire|]. split; [exact Hexecs|].
  exact (Hframe 1%positive entry1 fields1 deref_world1).
Defined.

Lemma X7_witness :
  ∃ c hp' e',
    Hook_copyEntry (New [] world1).1 1%positive heap1 = Ok (c, hp') ∧
    deref hp' c = Some (e', fields1) ∧
    Caller entry1 = Some main_frame ∧ Caller e' = None.
Proof.
  eassert (Hook_copyEntry (New [] world1).1 1%positive heap1 = Ok (_, _))
    as Hcopy by (vm_compute; reflexivity).
  destruct (X7_copy_has_no_caller _ _ _ _ _ _ _ deref_world1 Hcopy)
    as (e' & Hc & _ & Hcaller & _).
  eexists _, _, e'. split; [exact Hcopy|]. split; [exact Hc|].
  split; [reflexivity|exact Hcaller].
Defined.

Lemma X8_witness :
  ∃ c1 hp1 c2 hp2 w',
    Hook_copyEntry (New merging_options world1).1 1%positive heap1 = Ok (c1, hp1) ∧
    Hook_copyEntry (New merging_options world1).1 1%positive hp1 = Ok (c2, hp2) ∧
    c1 ≠ c2 ∧
    Hook_exec (New merging_options world1).1 c1 (mkWorld hp2 [] [] []) = Ok w' ∧
    (∃ e2, deref (heap w') c2 = Some (e2, fields1)) ∧
    deref (heap w') 1%positive = Some (entry1, fields1).
Proof.
  eassert (Hook_copyEntry (New merging_options world1).1 1%positive heap1 = Ok (_, _))
    as Hcopy1 by (vm_compute; reflexivity).
  match type of Hcopy1 with
  | _ = Ok (_, ?hp1) =>
      eassert (Hook_copyEntry (New merging_options world1).1 1%positive hp1 = Ok (_, _))
        as Hcopy2 by (vm_compute; reflexivity)
  end.
  match type of Hcopy2 with
  | _ = Ok (_, ?hp2) =>
      destruct (X8_jobs_do_not_share _ always_ok _ _ _ _ _ _ _ _ (mkWorld hp2 [] [] [])
                  deref_world1 Hcopy1 Hcopy2 (reflexivity _) (reflexivity _)
                  (reflexivity _))
        as (e1 & e2 & w' & Hne & _ & _ & _ & _ & _ & _ & _ & Hexec & _ & Hc2 & Hp)
  end.
  eexists _, _, _, _, w'. split; [exact Hcopy1|]. split; [exact Hcopy2|].
  split; [exact Hne|]. split; [exact Hexec|]. split; [by exists e2|exact Hp].
Defined.

Lemma X9_witness :
  ∃ c hp' w' call e',
    Hook_copyEntry (New merging_options world1).1 1%positive heap1 = Ok (c, hp') ∧
    Hook_exec (New merging_options world1).1 c
              (mkWorld (storeMap hp' 1%positive ∅) [] [] []) = Ok w' ∧
    execs w' = [call] ∧
    seen call = Some (e', fields1 ∪ extras1) ∧
    deref (heap w') 1%positive = Some (entry1, ∅).
Proof.
  eassert (Hook_copyEntry (New merging_options world1).1 1%positive heap1 = Ok (_, _))
    as Hcopy by (vm_compute; reflexivity).
  match type of Hcopy with
  | _ = Ok (_, ?hp') =>
      destruct (X9_backend_sees_snapshot _ always_ok _ _ _ _ _ _ ∅
                  (mkWorld (storeMap hp' 1%positive ∅) [] [] [])
                  deref_world1 Hcopy (reflexivity _) (reflexivity _) (reflexivity _))
        as (e' & w' & call & Hexec & Hcalls & _ & Hseen & _ & _ & _ & Hp)
  end.
  eexists _, _, w', call, e'. split; [exact Hcopy|]. split; [exact Hexec|].
  split; [exact Hcalls|]. split; [exact Hseen|exact Hp].
Defined.

Lemma X10_witness :
  ∃ d',
    callSite rt1 1%positive heap1 = Ok (storeMap heap1 1%positive d') ∧
    d' !! "user" = Some (VString "bob").
Proof.
  destruct (X10_resolver_touches_two_keys rt1 heap1 1%positive entry1 fields1
              deref_world1)
    as (d' & Hsite & Hkeep & _).
  exists d'. split; [exact Hsite|].
  rewrite (Hkeep "user") by discriminate. reflexivity.
Defined.

Lemma X11_witness :
  callSite (onStack (deep_stack ++ [logrus_frame; main_frame])) 1%positive heap1
  = Ok (storeMap heap1 1%positive
          (<["func" := VString "logrus.(*Entry).Info"]>
             (<["file" := VString "/logrus/entry.go:300"]> fields1))) ∧
  callSite (onStack (deep_stack ++ [main_frame; foreign_frame])) 1%positive heap1
  = Ok (storeMap heap1 1%positive
          (<["func" := VString "cart.(*Cart).Add"]>
             (<["file" := VString "/src/cart.go:42"]> fields1))).
Proof.
  split.
  - apply (X11_fallback_is_the_fourth_frame deep_stack [logrus_frame; main_frame]
             heap1 1%positive entry1 fields1 deref_world1 (reflexivity _)
             (reflexivity _)).
    repeat constructor.
  - apply (X11_fallback_is_the_fourth_frame deep_stack [main_frame; foreign_frame]
             heap1 1%positive entry1 fields1 deref_world1 (reflexivity _)
             (reflexivity _)).
    repeat constructor.
Defined.

Lemma X13_witness :
  ∃ d',
    writeFrame main_frame 1%positive heap1 = Ok (storeMap heap1 1%positive d') ∧
    d' !! "func" = Some (VString "cart.(*Cart).Add") ∧
    d' !! "file" = Some (VString "/src/cart.go:42").
Proof.
  apply (X13_func_field_is_last_element main_frame heap1 1%positive entry1 fields1
           "cart.(*Cart).Add" deref_world1).
  - discriminate.
  - apply (bool_decide_unpack _). vm_compute. exact I.
  - right. exists "github.com/acme/shop". reflexivity.
Defined.

Lemma X14_witness :
  ∃ h' w1 c e' w2 call,
    Hook_Fire (New merging_options world1).1 rt1 1%positive world1 = Ok (h', w1, None) ∧
    buffer (q h') = [NewJob c] ∧
    Hook_exec h' c w1 = Ok w2 ∧
    execs w2 = [call] ∧
    seen call = Some (e', resolvedFields rt1 fields1 ∪ extras1) ∧
    Message e' = "added".
Proof.
  destruct (X14_fired_entry_at_the_backend (New merging_options world1).1 always_ok
              rt1 1%positive world1 entry1 fields1 deref_world1
              (reflexivity _) (reflexivity _) (reflexivity _) (reflexivity _))
    as (h' & w1 & c & e' & w2 & call & Hfire & Hbuf & Hexec & Hcalls & _ & _ & Hseen
        & _ & _ & Hmsg).
  exists h', w1, c, e', w2, call. split; [exact Hfire|]. split; [exact Hbuf|].
  split; [exact Hexec|]. split; [exact Hcalls|]. split; [exact Hseen|exact Hmsg].
Defined.
